(** * Theia SCM service and Git contribution: a shallow embedding

    The development follows two source files of the repository:

    - the SCM service ([ScmService], [ScmRepository], [ScmInput]), and
    - the Git contribution ([GitContribution]: status-bar text, [commit],
      [addSignOff], and the command tables it registers).

    Conventions of the embedding.

    - A JavaScript string is the list of its UTF-16 code units.
    - A JavaScript object that is compared with [===] (a resource, a
      repository) is represented by a reference, a natural number.
    - [Emitter.fire] is recorded in an event log, in firing order; a
      listener that the source installs itself (the repository listening to
      its input) is run at the point of the [fire] that triggers it.
    - A promise returned by a host service is represented by the value it
      resolves to, and the continuation of an [await] runs as part of the
      same step.  The rejection of [git.commit] is represented, since the
      source catches it. *)

From stdpp Require Import base decidable option list.
From Stdlib Require Import ZArith Lia Ascii.
From Stdlib Require String.
Import String.StringSyntax.
Delimit Scope string_scope with string.

Local Open Scope Z_scope.

(** ** JavaScript strings *)

Module JsString.

Definition jsstring : Type := list N.

(** A source literal; every literal of the two files is plain ASCII. *)
Definition lit (s : String.string) : jsstring :=
  N_of_ascii <$> String.list_ascii_of_string s.
#[global] Arguments lit s%_string.

(** [WhiteSpace] and [LineTerminator] code units of ECMAScript, the ones
    [String.prototype.trim] strips. *)
Definition isWhiteSpace (c : N) : bool :=
  (bool_decide (c ∈ [9; 10; 11; 12; 13; 32; 160; 5760; 8232; 8233; 8239;
                     8287; 12288; 65279])
   || ((8192 <=? c) && (c <=? 8202)))%N.

Fixpoint trimStart (s : jsstring) : jsstring :=
  match s with
  | c :: s' => if isWhiteSpace c then trimStart s' else s
  | [] => []
  end.

Definition trimEnd (s : jsstring) : jsstring := reverse (trimStart (reverse s)).

Definition trim (s : jsstring) : jsstring := trimEnd (trimStart s).

(** Truthiness of a string: the empty string is falsy. *)
Definition truthy (s : jsstring) : bool :=
  match s with [] => false | _ => true end.

(** [s.endsWith(suffix)] *)
Definition endsWith (s suffix : jsstring) : bool :=
  bool_decide (length suffix ≤ length s)%nat
  && bool_decide (drop (length s - length suffix) s = suffix).

(** [s.substr(0, len)]: a negative length gives the empty string. *)
Definition substr0 (s : jsstring) (len : Z) : jsstring := take (Z.to_nat len) s.

(** [s.substring(0, n)] for a literal [n]. *)
Definition substring0 (s : jsstring) (n : nat) : jsstring := take n s.

Definition jslength (s : jsstring) : Z := Z.of_nat (length s).

End JsString.
Import JsString.

(** ** State and event log threading *)

(** A computation over a state [S] that logs events [E]. *)
Definition Eff (S E A : Type) : Type := S → A * S * list E.

Section Eff.
Context {S E : Type}.

Definition eff_ret {A} (a : A) : Eff S E A := λ s, (a, s, []).

Definition eff_bind {A B} (k : A → Eff S E B) (m : Eff S E A) : Eff S E B :=
  λ s, let '(a, s1, l1) := m s in
       let '(b, s2, l2) := k a s1 in
       (b, s2, l1 ++ l2).

Definition fire (e : E) : Eff S E unit := λ s, (tt, s, [e]).
Definition gets {A} (f : S → A) : Eff S E A := λ s, (f s, s, []).
Definition modify (f : S → S) : Eff S E unit := λ s, (tt, f s, []).
Definition skip : Eff S E unit := eff_ret tt.
End Eff.

#[global] Instance eff_mret {S E} : MRet (Eff S E) := @eff_ret S E.
#[global] Instance eff_mbind {S E} : MBind (Eff S E) := @eff_bind S E.

(** Runs a computation on a component [T] of the state [S]; [relay] turns
    the component's events into the events seen at the outer level. *)
Definition zoom {S T E F A} (proj : S → T) (upd : T → S → S)
    (relay : E → list F) (m : Eff T E A) : Eff S F A :=
  λ s, let '(a, t, l) := m (proj s) in (a, upd t s, l ≫= relay).

Definition result {S E A} (r : A * S * list E) : A := r.1.1.
Definition state {S E A} (r : A * S * list E) : S := r.1.2.
Definition events {S E A} (r : A * S * list E) : list E := r.2.

(** Unfolds the plumbing of [Eff] computations. *)
Ltac eff_unfold :=
  cbv [mbind mret eff_mbind eff_mret eff_bind eff_ret gets modify fire skip
       zoom result state events compose] in *.

(** Membership of an event in an explicit log. *)
Ltac in_log := rewrite ?elem_of_app, ?elem_of_cons; naive_solver.

(** ** The SCM model and service *)

Module Scm.

(** [ScmResource] objects; only their identity matters to the service. *)
Definition ScmResource : Type := nat.

Record ScmResourceGroup := {
  group_id : jsstring;
  group_label : jsstring;
  group_resources : list ScmResource
}.

Record ScmProvider := {
  provider_label : jsstring;
  provider_id : jsstring;
  groups : list ScmResourceGroup;
  rootUri : jsstring
}.

Inductive IssueType := info | success | warning | error.

Record ScmInputIssue := {
  message : jsstring;
  type : IssueType
}.

#[global] Instance IssueType_eq_dec : EqDecision IssueType.
Proof. solve_decision. Defined.
#[global] Instance ScmInputIssue_eq_dec : EqDecision ScmInputIssue.
Proof. solve_decision. Defined.

Definition ScmInputValidator : Type := jsstring → option ScmInputIssue.

Record ScmInputOptions := {
  placeholder : option jsstring;
  validator : option ScmInputValidator
}.

Definition no_input_options : ScmInputOptions :=
  {| placeholder := None; validator := None |}.

Record ScmProviderOptions := {
  options_input : option ScmInputOptions
}.

Inductive ScmEvent :=
| InputDidChange        (* ScmInput.onDidChangeEmitter.fire *)
| InputFocus            (* ScmInput.onFocusEmitter.fire *)
| RepositoryDidChange.  (* ScmRepository.onDidChangeEmitter.fire *)

#[global] Instance ScmEvent_eq_dec : EqDecision ScmEvent.
Proof. solve_decision. Defined.

(** *** ScmInput *)

Record ScmInput := {
  input_options : ScmInputOptions;
  _value : jsstring;
  _issue : option ScmInputIssue
}.

Definition new_ScmInput (options : option ScmInputOptions) : ScmInput :=
  {| input_options := default no_input_options options;
     _value := [];
     _issue := None |}.

Definition with_value (v : jsstring) (i : ScmInput) : ScmInput :=
  {| input_options := input_options i; _value := v; _issue := _issue i |}.

Definition with_issue (x : option ScmInputIssue) (i : ScmInput) : ScmInput :=
  {| input_options := input_options i; _value := _value i; _issue := x |}.

(** The JSON object [issue || {}]: its keys with their values. *)
Inductive JSONValue := JString (s : jsstring).

#[global] Instance JSONValue_eq_dec : EqDecision JSONValue.
Proof. solve_decision. Defined.

Definition issueType_json (t : IssueType) : jsstring :=
  match t with
  | info => lit "info"
  | success => lit "success"
  | warning => lit "warning"
  | error => lit "error"
  end.

Definition issue_or_empty (x : option ScmInputIssue) : list (jsstring * JSONValue) :=
  match x with
  | None => []
  | Some i => [(lit "message", JString (message i));
               (lit "type", JString (issueType_json (type i)))]
  end.

(** [JSONExt.deepEqual] on the two objects above. *)
Definition deepEqual (a b : list (jsstring * JSONValue)) : bool :=
  bool_decide (a = b).

Definition set_issue (issue : option ScmInputIssue) : Eff ScmInput ScmEvent unit :=
  cur ← gets _issue;
  if deepEqual (issue_or_empty cur) (issue_or_empty issue) then skip
  else modify (with_issue issue);; fire InputDidChange.

Definition validate : Eff ScmInput ScmEvent unit :=
  opts ← gets input_options;
  match validator opts with
  | Some v => value ← gets _value; set_issue (v value)
  | None => skip
  end.

Definition set_value (value : jsstring) : Eff ScmInput ScmEvent unit :=
  cur ← gets _value;
  if bool_decide (cur = value) then skip
  else modify (with_value value);; fire InputDidChange;; validate.

Definition focus : Eff ScmInput ScmEvent unit := fire InputFocus.

(** *** ScmRepository *)

Record ScmRepository := {
  provider : ScmProvider;
  options : ScmProviderOptions;
  input : ScmInput;
  _resources : list ScmResource;
  selectedIndex : Z
}.

Definition with_provider (p : ScmProvider) (r : ScmRepository) : ScmRepository :=
  {| provider := p; options := options r; input := input r;
     _resources := _resources r; selectedIndex := selectedIndex r |}.

Definition with_input (i : ScmInput) (r : ScmRepository) : ScmRepository :=
  {| provider := provider r; options := options r; input := i;
     _resources := _resources r; selectedIndex := selectedIndex r |}.

Definition with_resources (l : list ScmResource) (r : ScmRepository) : ScmRepository :=
  {| provider := provider r; options := options r; input := input r;
     _resources := l; selectedIndex := selectedIndex r |}.

Definition with_selectedIndex (i : Z) (r : ScmRepository) : ScmRepository :=
  {| provider := provider r; options := options r; input := input r;
     _resources := _resources r; selectedIndex := i |}.

(** [array[i]] for a number [i]: [undefined] outside of the array. *)
Definition array_get {A} (l : list A) (i : Z) : option A :=
  if i <? 0 then None else l !! Z.to_nat i.

(** [array.indexOf(x)]: the first index holding [x], or [-1]. *)
Fixpoint indexOf (l : list ScmResource) (x : ScmResource) : Z :=
  match l with
  | [] => -1
  | y :: l' =>
      if bool_decide (y = x) then 0
      else let i := indexOf l' x in if i <? 0 then -1 else i + 1
  end.

(** Truthiness of a number (no [NaN] arises here). *)
Definition truthy_num (n : Z) : bool := negb (n =? 0).

Definition fireDidChange : Eff ScmRepository ScmEvent unit :=
  fire RepositoryDidChange.

(** The listener [this.input.onDidChange(() => this.fireDidChange())]. *)
Definition relay_input (e : ScmEvent) : list ScmEvent :=
  match e with
  | InputDidChange => [InputDidChange; RepositoryDidChange]
  | _ => [e]
  end.

Definition on_input {A} (m : Eff ScmInput ScmEvent A) : Eff ScmRepository ScmEvent A :=
  zoom input with_input relay_input m.

Definition selectedResource (r : ScmRepository) : option ScmResource :=
  array_get (_resources r) (selectedIndex r).

Definition set_selectedResource (x : option ScmResource)
  : Eff ScmRepository ScmEvent unit :=
  l ← gets _resources;
  modify (with_selectedIndex
            (match x with Some x => indexOf l x | None => -1 end));;
  fireDidChange.

Definition updateSelection : Eff ScmRepository ScmEvent unit :=
  x ← gets selectedResource; set_selectedResource x.

Definition updateResources : Eff ScmRepository ScmEvent unit :=
  modify (with_resources []);;
  gs ← gets (groups ∘ provider);
  modify (λ r, with_resources
                 (foldl (λ acc g, acc ++ group_resources g) (_resources r) gs) r);;
  updateSelection.

(** [new ScmRepository(provider, options)]: the field initialisers, then
    the body of the constructor. *)
Definition new_ScmRepository (p : ScmProvider) (o : ScmProviderOptions)
  : ScmRepository * list ScmEvent :=
  let r0 := {| provider := p; options := o;
               input := new_ScmInput (options_input o);
               _resources := []; selectedIndex := -1 |} in
  let '(_, r, l) := updateResources r0 in (r, l).

(** The listener [this.provider.onDidChange(() => this.updateResources())];
    [p] is the state of the provider when it fires the event. *)
Definition onProviderDidChange (p : ScmProvider) : Eff ScmRepository ScmEvent unit :=
  modify (with_provider p);; updateResources.

Definition selectNextResource : Eff ScmRepository ScmEvent (option ScmResource) :=
  i ← gets selectedIndex;
  n ← gets (λ r, Z.of_nat (length (_resources r)));
  (if truthy_num i && (i <? n - 1) then
     modify (with_selectedIndex (i + 1));; fireDidChange
   else if truthy_num n && (i =? -1) then
     modify (with_selectedIndex 0);; fireDidChange
   else skip);;
  gets selectedResource.

Definition selectPreviousResource : Eff ScmRepository ScmEvent (option ScmResource) :=
  i ← gets selectedIndex;
  (if truthy_num i then
     modify (with_selectedIndex (i - 1));; fireDidChange
   else skip);;
  gets selectedResource.

(** What a client or the provider can do to a repository. *)
Inductive RepositoryOp :=
| ProviderDidChange (p : ScmProvider)
| SetSelectedResource (x : option ScmResource)
| SelectNextResource
| SelectPreviousResource
| SetInputValue (v : jsstring)
| SetInputIssue (x : option ScmInputIssue)
| FocusInput.

Definition run_op (op : RepositoryOp) : Eff ScmRepository ScmEvent unit :=
  match op with
  | ProviderDidChange p => onProviderDidChange p
  | SetSelectedResource x => set_selectedResource x
  | SelectNextResource => selectNextResource;; skip
  | SelectPreviousResource => selectPreviousResource;; skip
  | SetInputValue v => on_input (set_value v)
  | SetInputIssue x => on_input (set_issue x)
  | FocusInput => on_input focus
  end.

Inductive reachable : ScmRepository → Prop :=
| reachable_new p o : reachable (new_ScmRepository p o).1
| reachable_op r op : reachable r → reachable (state (run_op op r)).

(** The invariant of a repository: its resources are those of the
    provider's groups, in group order, and the selected resource, when
    there is one, is among them. *)
Definition resources_follow_groups (r : ScmRepository) : Prop :=
  _resources r = concat (group_resources <$> groups (provider r)).

Definition selection_in_resources (r : ScmRepository) : Prop :=
  match selectedResource r with
  | Some x => x ∈ _resources r
  | None => True
  end.

Definition invariant (r : ScmRepository) : Prop :=
  resources_follow_groups r ∧ selection_in_resources r.

(** The provider is a live object, read through [this.provider.groups] each
    time [updateResources] runs.  [provider_after op p] is its state after
    [op] when it was [p] before: a change event announces the new state,
    no other operation touches the provider. *)
Definition provider_after (op : RepositoryOp) (p : ScmProvider) : ScmProvider :=
  match op with
  | ProviderDidChange p' => p'
  | _ => p
  end.

(** [reachable_with p r]: the repository has reached state [r] while its
    provider has reached state [p].  The provider's state comes from the
    constructor's argument and from the change events, never from the
    repository's own fields. *)
Inductive reachable_with : ScmProvider → ScmRepository → Prop :=
| reachable_with_new p o : reachable_with p (new_ScmRepository p o).1
| reachable_with_op p r op :
    reachable_with p r →
    reachable_with (provider_after op p) (state (run_op op r)).

(** *** ScmService *)

(** A JavaScript [Map]: the entries in insertion order, keys distinct. *)
Abbreviation Map V := (list (jsstring * V)) (only parsing).

Definition map_has {V} (k : jsstring) (m : Map V) : bool :=
  bool_decide (k ∈ m.*1).

Fixpoint map_set {V} (k : jsstring) (v : V) (m : Map V) : Map V :=
  match m with
  | [] => [(k, v)]
  | (k', v') :: m' =>
      if bool_decide (k' = k) then (k, v) :: m' else (k', v') :: map_set k v m'
  end.

Fixpoint map_delete {V} (k : jsstring) (m : Map V) : Map V :=
  match m with
  | [] => []
  | (k', v') :: m' =>
      if bool_decide (k' = k) then m' else (k', v') :: map_delete k m'
  end.

(** [m.values().next().value] *)
Definition map_first_value {V} (m : Map V) : option V := head m.*2.

Record ScmService := {
  heap : list ScmRepository;  (* the repositories created so far *)
  _repositories : Map nat;
  _selectedRepository : option nat
}.

Definition new_ScmService : ScmService :=
  {| heap := []; _repositories := []; _selectedRepository := None |}.

Definition with_heap (h : list ScmRepository) (s : ScmService) : ScmService :=
  {| heap := h; _repositories := _repositories s;
     _selectedRepository := _selectedRepository s |}.

Definition with_repositories (m : Map nat) (s : ScmService) : ScmService :=
  {| heap := heap s; _repositories := m;
     _selectedRepository := _selectedRepository s |}.

Definition with_selected (x : option nat) (s : ScmService) : ScmService :=
  {| heap := heap s; _repositories := _repositories s;
     _selectedRepository := x |}.

Inductive ServiceEvent :=
| DidChangeSelectedRepository (x : option nat)
| DidAddRepository (r : nat)
| DidRemoveRepository (r : nat)
| RepositoryEvent (r : nat) (e : ScmEvent)  (* an event of repository [r] itself *)
| RepositoryDisposed (r : nat).             (* the original [dispose] of [r] ran *)

#[global] Instance ServiceEvent_eq_dec : EqDecision ServiceEvent.
Proof. solve_decision. Defined.

Inductive Completion (A : Type) :=
| Return (a : A)
| Throw (error_message : jsstring).
#[global] Arguments Return {A} a.
#[global] Arguments Throw {A} error_message.

Definition set_selectedRepository (x : option nat) : Eff ScmService ServiceEvent unit :=
  modify (with_selected x);; fire (DidChangeSelectedRepository x).

(** Allocates the object built by [new ScmRepository(provider, options)]. *)
Definition alloc_ScmRepository (p : ScmProvider) (o : ScmProviderOptions)
  : Eff ScmService ServiceEvent nat :=
  λ s, let '(repo, l) := new_ScmRepository p o in
       let r := length (heap s) in
       (r, with_heap (heap s ++ [repo]) s, RepositoryEvent r <$> l).

Definition registerScmProvider (p : ScmProvider) (o : ScmProviderOptions)
  : Eff ScmService ServiceEvent (Completion nat) :=
  m ← gets _repositories;
  if map_has (provider_id p) m then
    mret (Throw (lit "SCM Provider " ++ provider_id p ++ lit " already exists."))
  else
    r ← alloc_ScmRepository p o;
    modify (λ s, with_repositories (map_set (provider_id p) r (_repositories s)) s);;
    fire (DidAddRepository r);;
    m ← gets _repositories;
    (if bool_decide (length m = 1%nat) then set_selectedRepository (Some r) else skip);;
    mret (Return r).

(** [repository.dispose()] as replaced by [registerScmProvider]. *)
Definition dispose (r : nat) : Eff ScmService ServiceEvent unit :=
  o ← gets (λ s, heap s !! r);
  match o with
  | None => skip
  | Some repo =>
      modify (λ s, with_repositories
                     (map_delete (provider_id (provider repo)) (_repositories s)) s);;
      fire (RepositoryDisposed r);;
      fire (DidRemoveRepository r);;
      sel ← gets _selectedRepository;
      if bool_decide (sel = Some r) then
        first ← gets (map_first_value ∘ _repositories);
        set_selectedRepository first
      else skip
  end.

(** What clients can do to the service. *)
Inductive ServiceOp :=
| Register (p : ScmProvider) (o : ScmProviderOptions)
| Dispose (r : nat)
| Select (x : option nat).

Definition run_service_op (op : ServiceOp) : Eff ScmService ServiceEvent unit :=
  match op with
  | Register p o => registerScmProvider p o;; skip
  | Dispose r => dispose r
  | Select x => set_selectedRepository x
  end.

Inductive service_reachable : ScmService → Prop :=
| service_new : service_reachable new_ScmService
| service_op s op :
    service_reachable s → service_reachable (state (run_service_op op s)).

(** Every entry of the repository map is filed under the id of the
    provider of its repository, and no key occurs twice. *)
Definition entries_wf (s : ScmService) : Prop :=
  NoDup (_repositories s).*1
  ∧ ∀ k r, (k, r) ∈ _repositories s →
      ∃ repo, heap s !! r = Some repo ∧ provider_id (provider repo) = k.

End Scm.

(** ** Sample objects to run the model on *)

Module Samples.
Import Scm.

Definition changes_group : ScmResourceGroup :=
  {| group_id := lit "changes"; group_label := lit "Changes";
     group_resources := [10; 11]%nat |}.

Definition staged_group : ScmResourceGroup :=
  {| group_id := lit "index"; group_label := lit "Staged changes";
     group_resources := [12]%nat |}.

Definition first_provider : ScmProvider :=
  {| provider_label := lit "Git"; provider_id := lit "git:/a";
     groups := [changes_group; staged_group]; rootUri := lit "file:///a" |}.

Definition second_provider : ScmProvider :=
  {| provider_label := lit "Git"; provider_id := lit "git:/b";
     groups := []; rootUri := lit "file:///b" |}.

Definition no_options : ScmProviderOptions := {| options_input := None |}.

(** A repository as its constructor leaves it: three resources, none
    selected. *)
Definition fresh_repository : ScmRepository :=
  (new_ScmRepository first_provider no_options).1.

(** The same repository after one [selectNextResource]: the first resource
    is selected. *)
Definition first_selected : ScmRepository :=
  state (run_op SelectNextResource fresh_repository).

(** The first provider once its groups changed: the staged group now comes
    first. *)
Definition changed_provider : ScmProvider :=
  {| provider_label := lit "Git"; provider_id := lit "git:/a";
     groups := [staged_group; changes_group]; rootUri := lit "file:///a" |}.

(** The repository with its first resource selected, after the provider
    announced that change and [selectNextResource] was called again. *)
Definition after_change : ScmRepository :=
  state (run_op SelectNextResource
           (state (run_op (ProviderDidChange changed_provider) first_selected))).

(** A service on which the two providers were registered, in this order. *)
Definition two_repositories : ScmService :=
  state (run_service_op (Register second_provider no_options)
           (state (run_service_op (Register first_provider no_options)
                     new_ScmService))).
End Samples.

(** ** The Git contribution *)

Module GitContribution.
Import Scm.

Record Command := {
  id : jsstring;
  category : option jsstring;
  label : option jsstring;
  iconClass : option jsstring
}.

Module GIT_COMMANDS.
Definition CHECKOUT : Command :=
  {| id := lit "git.checkout"; label := Some (lit "Git: Checkout");
     category := None; iconClass := None |}.
Definition OPEN_CHANGED_FILE : Command :=
  {| id := lit "git.open.changed.file"; category := Some (lit "Git");
     label := Some (lit "Open File"); iconClass := Some (lit "open-file") |}.
Definition STAGE : Command :=
  {| id := lit "git.stage"; category := Some (lit "Git");
     label := Some (lit "Stage Changes"); iconClass := Some (lit "fa fa-plus") |}.
Definition STAGE_ALL : Command :=
  {| id := lit "git.stage.all"; category := Some (lit "Git");
     label := Some (lit "Stage All Changes"); iconClass := Some (lit "fa fa-plus") |}.
Definition UNSTAGE : Command :=
  {| id := lit "git.unstage"; iconClass := Some (lit "fa fa-minus");
     category := Some (lit "Git"); label := Some (lit "Unstage Changes") |}.
Definition UNSTAGE_ALL : Command :=
  {| id := lit "git.unstage.all"; iconClass := Some (lit "fa fa-minus");
     category := Some (lit "Git"); label := Some (lit "Unstage All") |}.
Definition DISCARD : Command :=
  {| id := lit "git.discard"; iconClass := Some (lit "fa fa-undo");
     category := Some (lit "Git"); label := Some (lit "Discard Changes") |}.
Definition DISCARD_ALL : Command :=
  {| id := lit "git.discard.all"; iconClass := Some (lit "fa fa-undo");
     category := Some (lit "Git"); label := Some (lit "Discard All Changes") |}.
End GIT_COMMANDS.

Definition GIT_CHECKOUT : jsstring := lit "git.checkout".

Record ScmCommand := {
  cmd_id : jsstring;
  cmd_text : jsstring;
  cmd_tooltip : option jsstring;
  cmd_command : option jsstring
}.

(** Truthiness of an optional string, an optional boolean, an object. *)
Definition truthy_str (s : option jsstring) : bool :=
  match s with Some s => truthy s | None => false end.
Definition truthy_bool (b : option bool) : bool := default false b.
Definition truthy_obj {A} (x : option A) : bool :=
  match x with Some _ => true | None => false end.

(** [a || b] on optional strings, where [b] is a string. *)
Definition or_else (a : option jsstring) (b : jsstring) : jsstring :=
  if truthy_str a then default [] a else b.

(** *** Command tables *)

Record ScmItem := {
  item_command : jsstring;
  item_group : jsstring
}.

(** A call [registry.registerItems(groupId, items)]. *)
Inductive RegistryCall := RegisterItems (groupId : jsstring) (items : list ScmItem).

Definition call_groupId (c : RegistryCall) : jsstring :=
  match c with RegisterItems g _ => g end.
Definition call_commands (c : RegistryCall) : list jsstring :=
  match c with RegisterItems _ items => item_command <$> items end.

Definition registerScmResourceCommands : list RegistryCall :=
  [ RegisterItems (lit "Changes")
      [ {| item_command := id GIT_COMMANDS.OPEN_CHANGED_FILE; item_group := lit "navigation" |};
        {| item_command := id GIT_COMMANDS.DISCARD; item_group := lit "navigation" |};
        {| item_command := id GIT_COMMANDS.STAGE; item_group := lit "navigation" |} ];
    RegisterItems (lit "Staged changes")
      [ {| item_command := id GIT_COMMANDS.OPEN_CHANGED_FILE; item_group := lit "navigation" |};
        {| item_command := id GIT_COMMANDS.UNSTAGE; item_group := lit "navigation" |} ];
    RegisterItems (lit "Merged Changes")
      [ {| item_command := id GIT_COMMANDS.OPEN_CHANGED_FILE; item_group := lit "navigation" |};
        {| item_command := id GIT_COMMANDS.DISCARD; item_group := lit "navigation" |};
        {| item_command := id GIT_COMMANDS.STAGE; item_group := lit "navigation" |} ] ].

Definition registerScmGroupCommands : list RegistryCall :=
  [ RegisterItems (lit "Changes")
      [ {| item_command := id GIT_COMMANDS.DISCARD_ALL; item_group := lit "inline" |};
        {| item_command := id GIT_COMMANDS.STAGE_ALL; item_group := lit "inline" |} ];
    RegisterItems (lit "Staged changes")
      [ {| item_command := id GIT_COMMANDS.UNSTAGE_ALL; item_group := lit "inline" |} ];
    RegisterItems (lit "Merged Changes")
      [ {| item_command := id GIT_COMMANDS.STAGE_ALL; item_group := lit "inline" |} ] ].

(** The commands registered for a group label: those of every call made
    for that label. *)
Definition registered_for (calls : list RegistryCall) (l : jsstring) : list (list jsstring) :=
  call_commands <$> filter (λ c, call_groupId c = l) calls.

(** *** Working-directory status *)

Section Status.
(** [GitFileStatus] is declared in the Git common package; the
    contribution only compares a status with [Conflicted]. *)
Context {GitFileStatus : Type} `{EqDecision GitFileStatus}.
Context (Conflicted : GitFileStatus).

(** The fields of [GitFileChange] and [WorkingDirectoryStatus] that the
    contribution reads. *)
Record GitFileChange := {
  uri : jsstring;
  status : GitFileStatus;
  staged : option bool
}.

Record WorkingDirectoryStatus := {
  branch : option jsstring;
  currentHead : option jsstring;
  changes : list GitFileChange
}.

Definition hasConflicts (cs : list GitFileChange) : bool :=
  existsb (λ c, bool_decide (status c = Conflicted)) cs.

Definition allStaged (cs : list GitFileChange) : bool :=
  negb (existsb (λ c, negb (truthy_bool (staged c))) cs).

(** What the [onGitEvent] listener does to the selected SCM provider. *)
Inductive ProviderCall :=
| SetStatus (s : WorkingDirectoryStatus)
| SetStatusBarCommands (cs : list ScmCommand).

Definition event_branch (s : WorkingDirectoryStatus) : jsstring :=
  if truthy_str (branch s) then default [] (branch s)
  else if truthy_str (currentHead s) then substring0 (default [] (currentHead s)) 8
  else lit "NO-HEAD".

Definition event_dirty (s : WorkingDirectoryStatus) : jsstring :=
  if 0 <? Z.of_nat (length (changes s)) then
    let conflicts := hasConflicts (changes s) in
    let staged := allStaged (changes s) in
    if conflicts || staged then
      if conflicts then lit "!" else if staged then lit "+" else []
    else lit "*"
  else [].

(** The listener installed by [onStart] on [repositoryTracker.onGitEvent],
    up to the publication of the checkout command; [selected] tells
    whether [repositoryProvider.selectedScmProvider] is defined. *)
Definition onGitEvent (selected : bool) (s : WorkingDirectoryStatus)
  : list ProviderCall :=
  let branch := event_branch s in
  let dirty := event_dirty s in
  if selected then
    [ SetStatus s;
      SetStatusBarCommands
        [ {| cmd_id := GIT_CHECKOUT;
             cmd_text := lit "$(code-fork) " ++ branch ++ dirty;
             cmd_tooltip := None;
             cmd_command := Some (id GIT_COMMANDS.CHECKOUT) |} ] ]
  else [].

(** *** commit and addSignOff *)

(** [Git.Options.Commit & { message?: string }] *)
Record CommitOptions := {
  signOff : option bool;
  amend : option bool;
  opt_message : option jsstring
}.

(** What the [git] service answers during one call of the contribution. *)
Record GitAnswers := {
  status_changes : list GitFileChange;  (* [(await git.status(r)).changes] *)
  commit_resolves : bool;               (* [git.commit] resolves, or rejects *)
  user_name_stdout : jsstring;          (* [git config user.name] *)
  user_email_stdout : jsstring          (* [git config user.email] *)
}.

(** The first argument of the [git] calls is the [repository] of the
    selected SCM provider; the provider stands for it here. *)
Inductive GitEvent :=
| OfRepository (e : ScmEvent)   (* an emitter of the selected SCM repository *)
| GitStatus (p : ScmProvider)
| GitCommit (p : ScmProvider) (message : jsstring) (signOff amend : option bool)
| GitExec (p : ScmProvider) (args : list jsstring)
| HandleError.

Definition on_repository {A} (m : Eff ScmRepository ScmEvent A)
  : Eff ScmRepository GitEvent A :=
  zoom (λ r, r) (λ r _, r) (λ e, [OfRepository e]) m.

(** Runs [m] on [repositoryProvider.selectedScmRepository], or returns at
    once when there is none. *)
Definition with_selectedScmRepository (m : Eff ScmRepository GitEvent unit)
  : Eff (option ScmRepository) GitEvent unit :=
  λ s, match s with
       | None => (tt, None, [])
       | Some r => let '(a, r', l) := m r in (a, Some r', l)
       end.

Definition issue_no_message : ScmInputIssue :=
  {| type := error; message := lit "Please provide a commit message" |}.

Definition issue_nothing_staged : ScmInputIssue :=
  {| type := error; message := lit "No changes added to commit" |}.

Definition commit (git : GitAnswers) (options : CommitOptions)
  : Eff (option ScmRepository) GitEvent unit :=
  with_selectedScmRepository (
    repository ← gets provider;
    value ← gets (_value ∘ input);
    let message := or_else (opt_message options) value in
    on_repository (on_input (set_issue None));;
    (if negb (truthy (trim message)) then
       on_repository (on_input (set_issue (Some issue_no_message)))
     else skip);;
    issue ← gets (_issue ∘ input);
    (if bool_decide (issue = None) then
       fire (GitStatus repository);;
       if negb (existsb (λ c, bool_decide (staged c = Some true))
                  (status_changes git)) then
         on_repository (on_input (set_issue (Some issue_nothing_staged)))
       else skip
     else skip);;
    issue ← gets (_issue ∘ input);
    if negb (truthy_obj issue) then
      fire (GitCommit repository message (signOff options) (amend options));;
      if commit_resolves git then on_repository (on_input (set_value []))
      else fire HandleError
    else on_repository (on_input focus)).

Definition signOff_line (username email : jsstring) : jsstring :=
  [10; 10]%N ++ lit "Signed-off-by: " ++ username ++ lit " <" ++ email ++ lit ">".

Definition addSignOff (git : GitAnswers)
  : Eff (option ScmRepository) GitEvent unit :=
  with_selectedScmRepository (
    repository ← gets provider;
    fire (GitExec repository [lit "config"; lit "user.name"]);;
    fire (GitExec repository [lit "config"; lit "user.email"]);;
    let username := trim (user_name_stdout git) in
    let email := trim (user_email_stdout git) in
    let signOff := signOff_line username email in
    value ← gets (_value ∘ input);
    (if endsWith value signOff then
       on_repository (on_input
         (set_value (substr0 value (jslength value - jslength signOff))))
     else
       on_repository (on_input (set_value (value ++ signOff))));;
    on_repository (on_input focus)).

Definition git_commit_calls (l : list GitEvent)
  : list (jsstring * option bool * option bool) :=
  l ≫= λ e, match e with GitCommit _ m s a => [(m, s, a)] | _ => [] end.

(** The value of the commit input of the selected repository. *)
Definition input_value (s : option ScmRepository) : option jsstring :=
  (λ r, _value (input r)) <$> s.
End Status.

#[global] Arguments GitFileChange : clear implicits.
#[global] Arguments WorkingDirectoryStatus : clear implicits.
#[global] Arguments ProviderCall : clear implicits.
#[global] Arguments GitAnswers : clear implicits.

(** A status type and answers of [git] to run the model on. *)
Inductive SampleStatus := Modified | InConflict.
#[global] Instance SampleStatus_eq_dec : EqDecision SampleStatus.
Proof. solve_decision. Defined.

Definition sample_answers : GitAnswers SampleStatus :=
  {| status_changes :=
       [ {| uri := lit "file:///a/x.ts"; status := Modified; staged := Some true |} ];
     commit_resolves := true;
     user_name_stdout := lit "Ann" ++ [10%N];
     user_email_stdout := lit "ann@example.org" ++ [10%N] |}.

Definition sample_signOff : jsstring :=
  signOff_line (lit "Ann") (lit "ann@example.org").

(** The sample repository with a commit message typed in. *)
Definition with_message (v : jsstring) : option ScmRepository :=
  Some (with_input (with_value v (input Samples.fresh_repository))
          Samples.fresh_repository).
End GitContribution.

(** ** Accessors of the SCM service *)

Module ScmAccessors.
Import Scm.

(** [map.get(k)] *)
Fixpoint map_get {V} (k : jsstring) (m : Map V) : option V :=
  match m with
  | [] => None
  | (k', v) :: m' => if bool_decide (k' = k) then Some v else map_get k m'
  end.

(** [get repositories()]: [[...this._repositories.values()]] *)
Definition repositories (s : ScmService) : list nat := (_repositories s).*2.

(** [getRepository(id)] *)
Definition getRepository (id : jsstring) (s : ScmService) : option nat :=
  map_get id (_repositories s).

(** Some repository is selected exactly when one is registered, and the
    selected one is registered. *)
Definition selection_consistent (s : ScmService) : Prop :=
  match _selectedRepository s with
  | None => _repositories s = []
  | Some r => r ∈ repositories s
  end.

(** The repository with its second resource selected, and a service where
    the first sample provider was registered, disposed of, and registered
    again. *)
Definition second_selected : ScmRepository :=
  state (run_op (SetSelectedResource (Some 11%nat)) Samples.fresh_repository).

Definition registered_again : ScmService :=
  state (run_service_op (Register Samples.first_provider Samples.no_options)
    (state (run_service_op (Dispose 0)
      (state (run_service_op (Register Samples.first_provider Samples.no_options)
                new_ScmService))))).

End ScmAccessors.

(** ** The SCM widget *)

Module ScmWidget.
Import Scm.

(** *** More string operations *)

(** [s.substring(start)] and [s.substring(start, end)]: both indices are
    clamped to the string, and swapped when the first exceeds the second. *)
Definition clamp (s : jsstring) (i : Z) : nat :=
  Z.to_nat (Z.min (Z.max i 0) (jslength s)).

Definition substring_from (s : jsstring) (start : Z) : jsstring :=
  drop (clamp s start) s.

Definition substring (s : jsstring) (start end_ : Z) : jsstring :=
  let a := clamp s start in
  let b := clamp s end_ in
  take (Nat.max a b - Nat.min a b) (drop (Nat.min a b) s).

Definition startsWith (s p : jsstring) : bool :=
  bool_decide (take (length p) s = p).

(** [s.lastIndexOf(p)]; [from s p i] searches the rest [s] of a string
    whose first code unit stands at index [i]. *)
Fixpoint lastIndexOf_from (s p : jsstring) (i : Z) : Z :=
  let here := if startsWith s p then i else -1 in
  match s with
  | [] => here
  | _ :: s' =>
      let later := lastIndexOf_from s' p (i + 1) in
      if later <? 0 then here else later
  end.

Definition lastIndexOf (s p : jsstring) : Z := lastIndexOf_from s p 0.

(** [p] stands in [s] at index [i]. *)
Definition occurs_at (s p : jsstring) (i : nat) : Prop :=
  take (length p) (drop i s) = p.

(** *** The placeholder of the input *)

(** [ScmInput.placeholder] *)
Definition input_placeholder (i : ScmInput) : jsstring :=
  match placeholder (input_options i) with
  | Some p => if truthy p then p else []
  | None => []
  end.

Definition isDigit (c : N) : bool := ((48 <=? c) && (c <=? 57))%N.

(** The longest run of digits at the head of a string, and the rest. *)
Fixpoint digit_run (s : jsstring) : jsstring * jsstring :=
  match s with
  | c :: s' =>
      if isDigit c then let '(ds, rest) := digit_run s' in (c :: ds, rest)
      else ([], s)
  | [] => ([], [])
  end.

(** [parseInt] on a run of digits.  (On runs too long for a double the
    source gets a rounded number or infinity, which lies beyond every
    argument list as well.) *)
Definition parseInt (ds : jsstring) : N :=
  foldl (λ n c, 10 * n + (c - 48))%N 0%N ds.

(** The callback of [value.replace]: [found] is the matched text [{n}]. *)
Definition replacement (args : list jsstring) (found n : jsstring) : jsstring :=
  match args !! N.to_nat (parseInt n) with
  | Some arg => arg
  | None => found
  end.

(** [value.replace(/{(\d+)}/g, callback)].  A match starts at a left brace
    that is followed by digits and a right brace; [skip] counts the code
    units of the last match still to be passed over. *)
Fixpoint replace_placeholders (args : list jsstring) (skip : nat) (s : jsstring)
  : jsstring :=
  match s with
  | [] => []
  | c :: s' =>
      match skip with
      | S k => replace_placeholders args k s'
      | O =>
          if (c =? 123)%N then
            match digit_run s' with
            | (d :: ds, close :: _) =>
                if (close =? 125)%N then
                  replacement args (c :: d :: ds ++ [close]) (d :: ds)
                    ++ replace_placeholders args (S (length (d :: ds))) s'
                else c :: replace_placeholders args 0 s'
            | _ => c :: replace_placeholders args 0 s'
            end
          else c :: replace_placeholders args 0 s'
      end
  end.

(** [format] of [renderInput] *)
Definition format (value : jsstring) (args : list jsstring) : jsstring :=
  if bool_decide (length args ≠ 0%nat) then replace_placeholders args 0 value
  else value.

(** The text shown in the empty input: [format(input.placeholder, keyBinding)] *)
Definition placeholder_message (i : ScmInput) (keyBinding : jsstring) : jsstring :=
  format (input_placeholder i) [keyBinding].

(** *** Accepting the input *)

Inductive InputCommandEvent :=
| KeyPress (key : jsstring) (ctrlKey : bool)
| MouseClick.

(** ['key' in event && !(event.key === 'Enter' && event.ctrlKey)] *)
Definition not_accepting (e : InputCommandEvent) : bool :=
  match e with
  | KeyPress key ctrlKey => negb (bool_decide (key = lit "Enter") && ctrlKey)
  | MouseClick => false
  end.

(** The provider stands for its [handle] in [executeCommand]. *)
Inductive WidgetEvent :=
| OfSelected (e : ScmEvent)   (* an emitter of the selected repository *)
| ExecuteCommand (id : jsstring) (p : ScmProvider).

Definition on_selected {A} (m : Eff ScmRepository ScmEvent A)
  : Eff ScmRepository WidgetEvent A :=
  zoom (λ r, r) (λ r _, r) (λ e, [OfSelected e]) m.

Definition issue_no_input : ScmInputIssue :=
  {| type := error; message := lit "Please provide an input" |}.

(** [executeInputCommand]; [accept] is [provider.acceptInputCommand] of the
    selected repository and [outcome] tells how [executeCommand] ends. *)
Definition executeInputCommand (event : InputCommandEvent)
    (accept : option GitContribution.ScmCommand) (outcome : Completion unit)
  : Eff (option ScmRepository) WidgetEvent (Completion unit) :=
  λ s,
    if not_accepting event then (Return tt, s, [])
    else
      match s, accept with
      | Some repository, Some command =>
          let '(done, repository', l) :=
            (on_selected (on_input (set_issue None));;
             value ← gets (_value ∘ input);
             (if negb (truthy (trim value)) then
                on_selected (on_input (set_issue (Some issue_no_input)))
              else skip);;
             issue ← gets (_issue ∘ input);
             if negb (GitContribution.truthy_obj issue) then
               p ← gets provider;
               fire (ExecuteCommand (GitContribution.cmd_id command) p);;
               match outcome with
               | Return _ =>
                   on_selected (on_input (set_value []));; mret (Return tt)
               | Throw e => mret (Throw e)
               end
             else on_selected (on_input focus);; mret (Return tt)) repository in
          (done, Some repository', l)
      | _, _ => (Return tt, s, [])
      end.

Definition executed_commands (l : list WidgetEvent) : list (jsstring * ScmProvider) :=
  l ≫= λ e, match e with ExecuteCommand c p => [(c, p)] | _ => [] end.

(** *** Name and path of a resource item *)

(** [renderScmResourceItem]: the [name] and [path] properties given to the
    resource component, or nothing when the provider has no root URI.
    [repoUri] is [resource.group.provider.rootUri] and [uri] is
    [resource.sourceUri.path.toString()]. *)
Definition renderScmResourceItem (repoUri uri : jsstring)
  : option (jsstring * jsstring) :=
  if negb (truthy repoUri) then None
  else
    let project := substring_from repoUri (lastIndexOf repoUri (lit "/") + 1) in
    let name := substring_from uri (lastIndexOf uri (lit "/") + 1) ++ lit " " in
    let path :=
      substring uri (lastIndexOf uri project + jslength project + 1)
        (lastIndexOf uri (lit "/")) in
    Some (name, if 1 <? jslength path then path else []).

End ScmWidget.

(** ** The Git contribution: commands, menus and the sync entry *)

Module GitCommands.
Import Scm GitContribution.

(** The commands of [GIT_COMMANDS] that the tables above do not need. *)
Definition CLONE : Command :=
  {| id := lit "git.clone"; label := Some (lit "Git: Clone...");
     category := None; iconClass := None |}.
Definition FETCH : Command :=
  {| id := lit "git.fetch"; label := Some (lit "Git: Fetch...");
     category := None; iconClass := None |}.
Definition PULL_DEFAULT : Command :=
  {| id := lit "git.pull.default"; label := Some (lit "Git: Pull");
     category := None; iconClass := None |}.
Definition PULL : Command :=
  {| id := lit "git.pull"; label := Some (lit "Git: Pull from...");
     category := None; iconClass := None |}.
Definition PUSH_DEFAULT : Command :=
  {| id := lit "git.push.default"; label := Some (lit "Git: Push");
     category := None; iconClass := None |}.
Definition PUSH : Command :=
  {| id := lit "git.push"; label := Some (lit "Git: Push to...");
     category := None; iconClass := None |}.
Definition MERGE : Command :=
  {| id := lit "git.merge"; label := Some (lit "Git: Merge...");
     category := None; iconClass := None |}.
(** [COMMIT] carries a tooltip and a text instead of a label. *)
Definition COMMIT : Command :=
  {| id := lit "git.commit.all"; label := None; category := None;
     iconClass := None |}.
Definition COMMIT_ADD_SIGN_OFF : Command :=
  {| id := lit "git-commit-add-sign-off"; label := Some (lit "Add Signed-off-by");
     iconClass := Some (lit "fa fa-pencil-square-o"); category := Some (lit "Git") |}.
Definition COMMIT_AMEND : Command :=
  {| id := lit "git.commit.amend"; label := None; category := None;
     iconClass := None |}.
Definition COMMIT_SIGN_OFF : Command :=
  {| id := lit "git.commit.signOff"; label := None; category := None;
     iconClass := None |}.
Definition OPEN_FILE : Command :=
  {| id := lit "git.open.file"; category := Some (lit "Git");
     label := Some (lit "Open File"); iconClass := Some (lit "theia-open-file-icon") |}.
Definition OPEN_CHANGES : Command :=
  {| id := lit "git.open.changes"; category := Some (lit "Git");
     label := Some (lit "Open Changes");
     iconClass := Some (lit "theia-open-change-icon") |}.
Definition SYNC : Command :=
  {| id := lit "git.sync"; label := Some (lit "Git: Sync");
     category := None; iconClass := None |}.
Definition PUBLISH : Command :=
  {| id := lit "git.publish"; label := Some (lit "Git: Publish Branch");
     category := None; iconClass := None |}.
Definition STASH : Command :=
  {| id := lit "git.stash"; category := Some (lit "Git");
     label := Some (lit "Stash..."); iconClass := None |}.
Definition APPLY_STASH : Command :=
  {| id := lit "git.stash.apply"; category := Some (lit "Git");
     label := Some (lit "Apply Stash..."); iconClass := None |}.
Definition APPLY_LATEST_STASH : Command :=
  {| id := lit "git.stash.apply.latest"; category := Some (lit "Git");
     label := Some (lit "Apply Latest Stash"); iconClass := None |}.
Definition POP_STASH : Command :=
  {| id := lit "git.stash.pop"; category := Some (lit "Git");
     label := Some (lit "Pop Stash..."); iconClass := None |}.
Definition POP_LATEST_STASH : Command :=
  {| id := lit "git.stash.pop.latest"; category := Some (lit "Git");
     label := Some (lit "Pop Latest Stash"); iconClass := None |}.
Definition DROP_STASH : Command :=
  {| id := lit "git.stash.drop"; category := Some (lit "Git");
     label := Some (lit "Drop Stash..."); iconClass := None |}.
Definition REFRESH : Command :=
  {| id := lit "git-refresh"; label := Some (lit "Refresh");
     iconClass := Some (lit "fa fa-refresh"); category := Some (lit "Git") |}.

Definition GIT_SYNC_STATUS : jsstring := lit "git-sync-status".

(** *** Menus *)

(** [ScmWidget.ContextMenu] *)
Definition PATH : list jsstring := [lit "scm-widget-context-menu"].
Definition INPUT_GROUP : list jsstring := PATH ++ [lit "1_input"].
Definition FIRST_GROUP : list jsstring := PATH ++ [lit "2_other"].
Definition SECOND_GROUP : list jsstring := PATH ++ [lit "3_other"].
Definition BATCH : list jsstring := PATH ++ [lit "3_batch"].

(** A call [menus.registerMenuAction(menuPath, { commandId, label })]. *)
Record MenuAction := {
  menuPath : list jsstring;
  commandId : jsstring;
  action_label : option jsstring
}.

(** [s.slice(n)] for a literal [n] within the string or beyond it. *)
Definition slice_from (s : jsstring) (n : nat) : jsstring := drop n s.

(** [command.label] of a command that has one. *)
Definition label_of (c : Command) : jsstring := default [] (label c).

Section Menus.
(** [EditorContextMenu.NAVIGATION] belongs to the editor package. *)
Context (EditorContextMenu_NAVIGATION : list jsstring).

Definition registerMenus : list MenuAction :=
  ((λ command,
      {| menuPath := FIRST_GROUP; commandId := id command;
         action_label :=
           Some (slice_from (label_of command) (length (lit "Git: "))) |})
     <$> [FETCH; PULL_DEFAULT; PULL; PUSH_DEFAULT; PUSH; MERGE])
  ++ [ {| menuPath := INPUT_GROUP; commandId := id COMMIT_AMEND;
          action_label := Some (lit "Commit (Amend)") |};
       {| menuPath := INPUT_GROUP; commandId := id COMMIT_SIGN_OFF;
          action_label := Some (lit "Commit (Signed Off)") |};
       {| menuPath := BATCH; commandId := id GIT_COMMANDS.STAGE_ALL;
          action_label := Some (lit "Stage All Changes") |};
       {| menuPath := BATCH; commandId := id GIT_COMMANDS.UNSTAGE_ALL;
          action_label := Some (lit "Unstage All Changes") |};
       {| menuPath := BATCH; commandId := id GIT_COMMANDS.DISCARD_ALL;
          action_label := Some (lit "Discard All Changes") |};
       {| menuPath := EditorContextMenu_NAVIGATION; commandId := id OPEN_FILE;
          action_label := None |};
       {| menuPath := EditorContextMenu_NAVIGATION; commandId := id OPEN_CHANGES;
          action_label := None |} ]
  ++ ((λ command,
         {| menuPath := SECOND_GROUP; commandId := id command;
            action_label := Some (label_of command) |})
        <$> [STASH; APPLY_STASH; APPLY_LATEST_STASH; POP_STASH;
             POP_LATEST_STASH; DROP_STASH]).
End Menus.

(** [registerToolbarItems]: the commands of the two items. *)
Definition registerToolbarItems : list jsstring := [id OPEN_FILE; id OPEN_CHANGES].

(** [registerScmTitleCommands] *)
Definition registerScmTitleCommands : list ScmItem :=
  [ {| item_command := id REFRESH; item_group := lit "navigation" |};
    {| item_command := id COMMIT_ADD_SIGN_OFF; item_group := lit "navigation" |} ].

(** *** Commands *)

(** What the [isEnabled] handler of a command looks at. *)
Inductive Enablement :=
| RepositorySelected     (* [!!repositoryTracker.selectedRepository] *)
| ScmProviderSelected    (* [!!repositoryProvider.selectedScmProvider] *)
| OpenFileOptions        (* [!!getOpenFileOptions(widget)] *)
| OpenChangesOptions     (* [!!getOpenChangesOptions(widget)] *)
| CanSync
| CanPublish
| WorkspaceOpened
| RepositoryWithChanges  (* a selected repository whose status has changes *)
| Always.                (* no [isEnabled] handler *)

(** [registerCommands]: the commands in the order of their registration,
    each with what enables it. *)
Definition registerCommands : list (Command * Enablement) :=
  [ (FETCH, RepositorySelected); (PULL_DEFAULT, RepositorySelected);
    (PULL, RepositorySelected); (PUSH_DEFAULT, RepositorySelected);
    (PUSH, RepositorySelected); (MERGE, RepositorySelected);
    (GIT_COMMANDS.CHECKOUT, RepositorySelected);
    (COMMIT_SIGN_OFF, RepositorySelected); (COMMIT_AMEND, RepositorySelected);
    (GIT_COMMANDS.STAGE_ALL, ScmProviderSelected);
    (GIT_COMMANDS.UNSTAGE_ALL, ScmProviderSelected);
    (GIT_COMMANDS.DISCARD_ALL, ScmProviderSelected);
    (OPEN_FILE, OpenFileOptions); (OPEN_CHANGES, OpenChangesOptions);
    (SYNC, CanSync); (PUBLISH, CanPublish); (CLONE, WorkspaceOpened);
    (COMMIT, RepositorySelected); (REFRESH, Always);
    (COMMIT_ADD_SIGN_OFF, RepositorySelected);
    (GIT_COMMANDS.UNSTAGE, ScmProviderSelected);
    (GIT_COMMANDS.STAGE, ScmProviderSelected);
    (GIT_COMMANDS.DISCARD, ScmProviderSelected);
    (GIT_COMMANDS.OPEN_CHANGED_FILE, Always);
    (STASH, RepositoryWithChanges); (APPLY_STASH, RepositorySelected);
    (APPLY_LATEST_STASH, RepositorySelected); (POP_STASH, RepositorySelected);
    (POP_LATEST_STASH, RepositorySelected); (DROP_STASH, RepositorySelected) ].

Definition registered_ids : list jsstring := (λ c, id c.1) <$> registerCommands.

(** Every command id that a menu action, a toolbar item, or a title,
    resource or group item of the contribution names. *)
Definition referenced_ids (EditorContextMenu_NAVIGATION : list jsstring)
  : list jsstring :=
  (commandId <$> registerMenus EditorContextMenu_NAVIGATION)
  ++ registerToolbarItems
  ++ (item_command <$> registerScmTitleCommands)
  ++ concat (call_commands <$> registerScmResourceCommands)
  ++ concat (call_commands <$> registerScmGroupCommands).

End GitCommands.

(** ** The Git contribution: sync entry, commit commands, open commands *)

Module GitHandlers.
Import Scm GitContribution GitCommands.

(** *** The sync entry of the status bar *)

(** The fields of the working-directory status that the sync entry reads;
    [aheadBehind] holds the two commit counts [ahead] and [behind]. *)
Record SyncStatus := {
  sync_branch : option jsstring;
  upstreamBranch : option jsstring;
  aheadBehind : option (N * N)
}.

Record StatusBarEntry := {
  entry_text : jsstring;
  entry_tooltip : option jsstring;
  entry_command : option jsstring
}.

(** The calls of [updateSyncStatusBarEntry]. *)
Inductive SyncCall :=
| SetSyncCommands (cs : list ScmCommand)  (* [scmProvider.setStatusBarCommands] *)
| RemoveElement (id : jsstring).          (* [statusBar.removeElement] *)

Section SyncEntry.
(** The conversion of a number to a string in a template literal. *)
Context (number_toString : N → jsstring).

(** [status] is [repositoryTracker.selectedRepositoryStatus]. *)
Definition getStatusBarEntry (status : option SyncStatus) (isSyncing : bool)
  : option StatusBarEntry :=
  match status with
  | None => None
  | Some status =>
      if negb (truthy_str (sync_branch status)) then None
      else if isSyncing then
        Some {| entry_text := lit "$(refresh~spin)";
                entry_tooltip := Some (lit "Synchronizing Changes...");
                entry_command := None |}
      else if truthy_str (upstreamBranch status) then
        Some {| entry_text :=
                  lit "$(refresh)"
                  ++ match aheadBehind status with
                     | Some (ahead, behind) =>
                         if (0 <? ahead + behind)%N then
                           lit " " ++ number_toString behind ++ [8595%N]
                           ++ lit " " ++ number_toString ahead ++ [8593%N]
                         else []
                     | None => []
                     end;
                entry_command := Some (id SYNC);
                entry_tooltip := Some (lit "Synchronize Changes") |}
      else
        Some {| entry_text := lit "$(cloud-upload)";
                entry_command := Some (id PUBLISH);
                entry_tooltip := Some (lit "Publish Changes") |}
  end.

(** [selected] tells whether [repositoryProvider.selectedScmProvider] is
    defined. *)
Definition updateSyncStatusBarEntry (selected : bool) (status : option SyncStatus)
    (isSyncing : bool) : list SyncCall :=
  match getStatusBarEntry status isSyncing with
  | Some entry =>
      if selected then
        [ SetSyncCommands
            [ {| cmd_id := GIT_SYNC_STATUS;
                 cmd_text := entry_text entry;
                 cmd_tooltip := entry_tooltip entry;
                 cmd_command := entry_command entry |} ] ]
      else [RemoveElement GIT_SYNC_STATUS]
  | None => [RemoveElement GIT_SYNC_STATUS]
  end.
End SyncEntry.

(** *** The commit commands *)

(** What a rejected promise carries: an [Error] with its message, or
    something else. *)
Inductive Thrown :=
| ErrorObject (error_message : jsstring)
| OtherValue.

Section CommitCommands.
Context {GitFileStatus : Type}.

(** The [execute] handlers of [COMMIT] and [COMMIT_SIGN_OFF]. *)
Definition execute_COMMIT (git : GitAnswers GitFileStatus)
  : Eff (option ScmRepository) GitEvent unit :=
  commit git {| signOff := None; amend := None; opt_message := None |}.

Definition execute_COMMIT_SIGN_OFF (git : GitAnswers GitFileStatus)
  : Eff (option ScmRepository) GitEvent unit :=
  commit git {| signOff := Some true; amend := None; opt_message := None |}.

(** The [execute] handler of [COMMIT_AMEND]; [answer] is how
    [quickOpenService.commitMessageForAmend()] ends, and the result tells
    what the handler rejects with, if it does. *)
Definition execute_COMMIT_AMEND (git : GitAnswers GitFileStatus)
    (answer : jsstring + Thrown)
  : Eff (option ScmRepository) GitEvent (option Thrown) :=
  match answer with
  | inl message =>
      commit git {| opt_message := Some message; amend := Some true;
                    signOff := None |};;
      mret None
  | inr e =>
      match e with
      | ErrorObject m =>
          if bool_decide (m ≠ lit "User abort.") then mret (Some e) else mret None
      | OtherValue => mret (Some e)
      end
  end.
End CommitCommands.

(** *** Open File and Open Changes *)

Section OpenCommands.
(** URIs, editor selections and changes belong to other packages, as do
    [DiffUris] and the lookups of the Git SCM provider. *)
Context {URI Selection Change : Type}.
Context (isDiffUri : URI → bool) (decode_right : URI → URI).
Context (withScheme_file : URI → URI) (toString : URI → jsstring).
Context (findChange : URI → option Change) (getUriToOpen : Change → URI).

(** A widget: an [EditorWidget] with the URI and the selection of its
    editor, or a widget of another class. *)
Inductive Widget :=
| EditorWidget (uri : URI) (selection : Selection)
| OtherWidget.

Record GitOpenFileOptions := {
  file_uri : URI;
  file_selection : Selection;
  file_ref : Widget
}.

Record GitOpenChangesOptions := {
  changes_change : Change;
  changes_selection : Selection;
  changes_ref : Widget
}.

(** [widget ? widget : this.editorManager.currentEditor] *)
Definition ref_of (widget currentEditor : option Widget) : option Widget :=
  match widget with Some w => Some w | None => currentEditor end.

Definition getOpenFileOptions (widget currentEditor : option Widget)
  : option GitOpenFileOptions :=
  match ref_of widget currentEditor with
  | Some (EditorWidget uri selection as ref) =>
      if isDiffUri uri then
        Some {| file_uri := withScheme_file (decode_right uri);
                file_selection := selection; file_ref := ref |}
      else None
  | _ => None
  end.

(** [selected] tells whether an SCM provider is selected. *)
Definition getOpenChangesOptions (selected : bool)
    (widget currentEditor : option Widget) : option GitOpenChangesOptions :=
  if negb selected then None
  else
    match ref_of widget currentEditor with
    | Some (EditorWidget uri selection as ref) =>
        if negb (isDiffUri uri) then
          match findChange uri with
          | Some change =>
              if bool_decide (toString (getUriToOpen change) ≠ toString uri) then
                Some {| changes_change := change;
                        changes_selection := selection; changes_ref := ref |}
              else None
          | None => None
          end
        else None
    | _ => None
    end.
End OpenCommands.

End GitHandlers.

(** * Properties *)

Module JsStringFacts.

Lemma endsWith_true (s suffix : jsstring) :
  endsWith s suffix = true ↔ ∃ p, s = p ++ suffix.
Proof.
  unfold endsWith. rewrite andb_true_iff, !bool_decide_eq_true. split.
  - intros [L D]. exists (take (length s - length suffix) s).
    etrans; [symmetry; apply (take_drop (length s - length suffix))|].
    by rewrite D.
  - intros [p ->]. rewrite length_app. split; [lia|].
    replace (length p + length suffix - length suffix)%nat with (length p)
      by lia.
    by rewrite drop_app_length.
Qed.

Lemma endsWith_false (s suffix : jsstring) :
  endsWith s suffix = false ↔ ¬ ∃ p, s = p ++ suffix.
Proof. rewrite <- endsWith_true. by destruct (endsWith s suffix). Qed.

Lemma substr0_suffix (p suffix : jsstring) :
  substr0 (p ++ suffix) (jslength (p ++ suffix) - jslength suffix) = p.
Proof.
  unfold substr0, jslength. rewrite length_app.
  replace (Z.to_nat (Z.of_nat (length p + length suffix)
                     - Z.of_nat (length suffix))) with (length p) by lia.
  by rewrite take_app_length.
Qed.

(** [trim] gives the empty string exactly on strings of white space. *)
Lemma trimStart_nil (s : jsstring) :
  trimStart s = [] ↔ Forall (λ c, isWhiteSpace c = true) s.
Proof.
  induction s as [|c s IH]; simpl.
  - split; [constructor|done].
  - rewrite Forall_cons. destruct (isWhiteSpace c); [|split; [done|]].
    + rewrite IH. tauto.
    + by intros [[=] _].
Qed.

Lemma trimStart_head (s : jsstring) :
  match trimStart s with
  | [] => True
  | c :: _ => isWhiteSpace c = false
  end.
Proof.
  induction s as [|c s IH]; simpl; [done|].
  by destruct (isWhiteSpace c) eqn:W.
Qed.

Lemma trim_nil (s : jsstring) :
  trim s = [] ↔ Forall (λ c, isWhiteSpace c = true) s.
Proof.
  unfold trim, trimEnd. rewrite <- trimStart_nil. split.
  - intros E. apply (f_equal length) in E.
    rewrite length_reverse in E. apply nil_length_inv in E.
    apply trimStart_nil in E. rewrite Forall_reverse in E.
    pose proof (trimStart_head s) as H.
    destruct (trimStart s) as [|c t]; [done|].
    apply Forall_cons in E as [W _]. congruence.
  - by intros ->.
Qed.

End JsStringFacts.

Module ScmFacts.
Import Scm.

Lemma issueType_json_inj t1 t2 : issueType_json t1 = issueType_json t2 → t1 = t2.
Proof. destruct t1, t2; simpl; intros E; try reflexivity; discriminate E. Qed.

Lemma issue_or_empty_inj x y : issue_or_empty x = issue_or_empty y → x = y.
Proof.
  destruct x as [[m1 t1]|], y as [[m2 t2]|]; simpl; intros E;
    try reflexivity; try discriminate E.
  injection E as -> E. apply issueType_json_inj in E. by subst.
Qed.

Lemma deepEqual_issue x y :
  deepEqual (issue_or_empty x) (issue_or_empty y) = bool_decide (x = y).
Proof.
  unfold deepEqual. apply bool_decide_ext. split.
  - apply issue_or_empty_inj.
  - by intros ->.
Qed.

Lemma set_issue_eq x (i : ScmInput) :
  set_issue x i =
    if bool_decide (_issue i = x) then (tt, i, [])
    else (tt, with_issue x i, [InputDidChange]).
Proof.
  unfold set_issue. eff_unfold. rewrite deepEqual_issue.
  by destruct (bool_decide (_issue i = x)).
Qed.

Lemma set_issue_issue x i : _issue (state (set_issue x i)) = x.
Proof.
  rewrite set_issue_eq. case_bool_decide; [|done]. by subst.
Qed.

Lemma set_issue_value x i : _value (state (set_issue x i)) = _value i.
Proof. rewrite set_issue_eq. by case_bool_decide. Qed.

Lemma set_issue_options x i : input_options (state (set_issue x i)) = input_options i.
Proof. rewrite set_issue_eq. by case_bool_decide. Qed.

Lemma with_input_id r : with_input (input r) r = r.
Proof. by destruct r. Qed.

Lemma on_input_set_value v r :
  ∃ r' l, on_input (set_value v) r = (tt, r', l) ∧ _value (input r') = v.
Proof.
  unfold on_input, set_value, validate. eff_unfold.
  case_bool_decide as E; simpl.
  - by exists (with_input (input r) r), [].
  - destruct (validator (input_options (input r))) as [check|].
    + match goal with
      | |- context [set_issue ?x ?i] =>
          pose proof (set_issue_value x i) as V;
          destruct (set_issue x i) as [[[] i'] l]
      end.
      by eexists _, _.
    + by eexists _, _.
Qed.

(** C7.  Setting [ScmInput.value] to the current value changes nothing
    and fires nothing; setting it to another string stores it, fires the
    input's [onDidChange], which the owning repository relays on its own
    [onDidChange], and then runs the configured validator, whose result
    is the issue afterwards (without a validator the issue stays).
    Setting [ScmInput.issue] to a value deep-equal to the current one,
    [undefined] read as the empty object, changes nothing and fires
    nothing; setting it to another value stores it and fires
    [onDidChange], relayed by the repository as well. *)
Theorem input_setters_notify (r : ScmRepository) (v : jsstring)
    (x : option ScmInputIssue) :
  (if decide (_value (input r) = v) then
     on_input (set_value v) r = (tt, r, [])
   else
     ∃ r' l,
       on_input (set_value v) r
         = (tt, r', InputDidChange :: RepositoryDidChange :: l)
       ∧ _value (input r') = v
       ∧ _issue (input r')
         = match validator (input_options (input r)) with
           | Some check => check v
           | None => _issue (input r)
           end
       ∧ l = (if decide (_issue (input r') = _issue (input r)) then []
              else [InputDidChange; RepositoryDidChange]))
  ∧
  (if decide (issue_or_empty (_issue (input r)) = issue_or_empty x) then
     on_input (set_issue x) r = (tt, r, [])
   else
     on_input (set_issue x) r
       = (tt, with_input (with_issue x (input r)) r,
          [InputDidChange; RepositoryDidChange])).
Proof.
  split.
  - destruct (decide (_value (input r) = v)) as [E|NE].
    + unfold on_input, set_value. eff_unfold.
      rewrite bool_decide_eq_true_2 by done. by rewrite with_input_id.
    + unfold on_input, set_value, validate. eff_unfold.
      rewrite bool_decide_eq_false_2 by done. simpl.
      destruct (validator (input_options (input r))) as [check|] eqn:V.
      * rewrite set_issue_eq. simpl.
        case_bool_decide as D; simpl; eexists _, _;
          (split; [reflexivity|]); simpl.
        -- rewrite decide_True by done. by rewrite D.
        -- rewrite decide_False by done. done.
      * eexists _, _. split; [reflexivity|]. simpl.
        by rewrite decide_True.
  - unfold on_input. eff_unfold. rewrite set_issue_eq.
    destruct (decide (issue_or_empty (_issue (input r)) = issue_or_empty x))
      as [E|NE].
    + apply issue_or_empty_inj in E.
      rewrite bool_decide_eq_true_2 by done. by rewrite with_input_id.
    + rewrite bool_decide_eq_false_2; [done|].
      intros E. apply NE. by rewrite E.
Qed.

(** *** Selection *)

Lemma array_get_elem_of {A} (l : list A) i x : array_get l i = Some x → x ∈ l.
Proof.
  unfold array_get. destruct (i <? 0); [done|].
  intros E. by eapply list_elem_of_lookup_2.
Qed.

Lemma selection_always_in_resources r : selection_in_resources r.
Proof.
  unfold selection_in_resources, selectedResource.
  destruct (array_get _ _) eqn:E; [|done]. by eapply array_get_elem_of.
Qed.

Lemma foldl_push_all (gs : list ScmResourceGroup) (acc : list ScmResource) :
  foldl (λ acc g, acc ++ group_resources g) acc gs
  = acc ++ concat (group_resources <$> gs).
Proof.
  revert acc. induction gs as [|g gs IH]; intros acc; simpl.
  - by rewrite app_nil_r.
  - by rewrite IH, app_assoc.
Qed.

Lemma updateResources_resources r :
  _resources (state (updateResources r))
  = concat (group_resources <$> groups (provider r)).
Proof.
  unfold updateResources, updateSelection, set_selectedResource, fireDidChange.
  eff_unfold. simpl. by rewrite foldl_push_all.
Qed.

Lemma updateResources_provider r :
  provider (state (updateResources r)) = provider r.
Proof. reflexivity. Qed.

Lemma new_ScmRepository_state p o :
  (new_ScmRepository p o).1
  = state (updateResources
             {| provider := p; options := o;
                input := new_ScmInput (options_input o);
                _resources := []; selectedIndex := -1 |}).
Proof.
  unfold new_ScmRepository. by destruct (updateResources _) as [[[] ?] ?].
Qed.

Lemma new_ScmRepository_provider p o : provider (new_ScmRepository p o).1 = p.
Proof. by rewrite new_ScmRepository_state, updateResources_provider. Qed.

Lemma run_op_keeps_groups op r :
  match op with
  | ProviderDidChange _ => True
  | _ => provider (state (run_op op r)) = provider r
         ∧ _resources (state (run_op op r)) = _resources r
  end.
Proof.
  destruct op; simpl; try done.
  - unfold selectNextResource, fireDidChange. eff_unfold.
    destruct (truthy_num _ && _); [done|].
    by destruct (truthy_num _ && _).
  - unfold selectPreviousResource, fireDidChange. eff_unfold.
    by destruct (truthy_num _).
  - unfold on_input. eff_unfold. by destruct (set_value v (input r)) as [[??]?].
  - unfold on_input. eff_unfold. by destruct (set_issue x (input r)) as [[??]?].
Qed.

(** The repository's own view: its resources are those of the groups of the
    provider it holds, and the selection is among them. *)
Lemma reachable_invariant r : reachable r → invariant r.
Proof.
  intros R. split; [|apply selection_always_in_resources].
  induction R as [p o|r op R IH].
  - unfold resources_follow_groups. rewrite new_ScmRepository_state.
    by rewrite updateResources_resources, updateResources_provider.
  - unfold resources_follow_groups in *.
    pose proof (run_op_keeps_groups op r) as K.
    destruct op; [|by destruct K as [-> ->]..].
    simpl. unfold onProviderDidChange. eff_unfold.
    apply (updateResources_resources (with_provider p r)).
Qed.

Lemma reachable_with_reachable p r : reachable_with p r → reachable r.
Proof. induction 1; by constructor. Qed.

Lemma reachable_reachable_with r : reachable r → ∃ p, reachable_with p r.
Proof.
  induction 1 as [p o|r op _ [p R]].
  - exists p. constructor.
  - exists (provider_after op p). by constructor.
Qed.

Lemma onProviderDidChange_provider p r :
  provider (state (onProviderDidChange p r)) = p.
Proof. reflexivity. Qed.

Lemma onProviderDidChange_resources p r :
  _resources (state (onProviderDidChange p r))
  = concat (group_resources <$> groups p).
Proof.
  unfold onProviderDidChange. eff_unfold.
  apply (updateResources_resources (with_provider p r)).
Qed.

(** C6.  Take any run of a repository: its construction on a provider,
    followed by change events of the provider, selection operations and
    input operations, in any order.  With [p] the provider's state at the
    end of the run, that is the constructor's argument or the state that
    the last change event announced, the repository holds this provider,
    its resources are the concatenation of the resources of the groups of
    [p], in group order, and its selected resource is either [undefined] or
    an element of that concatenation. *)
Theorem repository_invariant (p : ScmProvider) (r : ScmRepository) :
  reachable_with p r →
  provider r = p
  ∧ _resources r = concat (group_resources <$> groups p)
  ∧ match selectedResource r with
    | Some x => x ∈ concat (group_resources <$> groups p)
    | None => True
    end.
Proof.
  intros R.
  assert (provider r = p
          ∧ _resources r = concat (group_resources <$> groups p)) as [P E].
  { induction R as [p o|p r op R [P E]].
    - split; [apply new_ScmRepository_provider|].
      rewrite new_ScmRepository_state. by rewrite updateResources_resources.
    - pose proof (run_op_keeps_groups op r) as K.
      destruct op as [p'| | | | | |];
        [|destruct K as [-> ->]; by cbn [provider_after]..].
      cbn [provider_after run_op].
      split; [apply onProviderDidChange_provider
             |apply onProviderDidChange_resources]. }
  split_and!; [done..|].
  rewrite <-E. apply selection_always_in_resources.
Qed.

Lemma after_change_values :
  _resources Samples.after_change = [12; 10; 11]%nat
  ∧ selectedResource Samples.after_change = Some 12%nat.
Proof. done. Qed.

Lemma repository_invariant_witness :
  provider Samples.after_change = Samples.changed_provider
  ∧ _resources Samples.after_change
    = concat (group_resources <$> groups Samples.changed_provider)
  ∧ match selectedResource Samples.after_change with
    | Some x => x ∈ concat (group_resources <$> groups Samples.changed_provider)
    | None => True
    end.
Proof.
  apply (repository_invariant Samples.changed_provider Samples.after_change).
  exact (reachable_with_op _ _ SelectNextResource
           (reachable_with_op _ _ (ProviderDidChange Samples.changed_provider)
              (reachable_with_op _ _ SelectNextResource
                 (reachable_with_new Samples.first_provider Samples.no_options)))).
Defined.

(** With index 0 selected, [selectNextResource] does nothing at all. *)
Lemma selectNextResource_index_0 r :
  selectNextResource (with_selectedIndex 0 r)
  = (selectedResource (with_selectedIndex 0 r), with_selectedIndex 0 r, []).
Proof.
  unfold selectNextResource, fireDidChange. eff_unfold. simpl.
  by destruct (Z.of_nat (length (_resources r))).
Qed.

(** From an index [i] other than 0 and below the last one,
    [selectNextResource] moves to [i + 1]. *)
Lemma selectNextResource_advances r :
  selectedIndex r ≠ 0 →
  selectedIndex r < Z.of_nat (length (_resources r)) - 1 →
  selectNextResource r
  = (array_get (_resources r) (selectedIndex r + 1),
     with_selectedIndex (selectedIndex r + 1) r, [RepositoryDidChange]).
Proof.
  intros NZ LT. unfold selectNextResource, fireDidChange, truthy_num.
  eff_unfold.
  destruct (Z.eqb_spec (selectedIndex r) 0) as [|_]; [done|].
  destruct (Z.ltb_spec (selectedIndex r) (Z.of_nat (length (_resources r)) - 1));
    [done|lia].
Qed.

(** From an index other than 0, [selectPreviousResource] moves one down,
    also below 0. *)
Lemma selectPreviousResource_moves r :
  selectedIndex r ≠ 0 →
  selectPreviousResource r
  = (array_get (_resources r) (selectedIndex r - 1),
     with_selectedIndex (selectedIndex r - 1) r, [RepositoryDidChange]).
Proof.
  intros NZ. unfold selectPreviousResource, fireDidChange, truthy_num.
  eff_unfold. by destruct (Z.eqb_spec (selectedIndex r) 0).
Qed.

(** C2, at an input where the source departs from it.  The repository
    holds the resources 10, 11 and 12 and the one at index 0 is selected,
    which is not the last index: [selectNextResource] returns resource 10
    again, leaves index 0 selected and fires nothing, where index 1 is to
    be selected, [onDidChange] fired and resource 11 returned. *)
Theorem selectNextResource_stuck_on_first :
  _resources Samples.first_selected = [10; 11; 12]%nat
  ∧ selectedIndex Samples.first_selected = 0
  ∧ selectNextResource Samples.first_selected
    = (Some 10%nat, Samples.first_selected, []).
Proof. by vm_compute. Qed.

(** C3, at an input where the source departs from it.  No resource of
    the repository is selected (index -1): [selectPreviousResource]
    returns [undefined] but moves the index to -2 and fires [onDidChange],
    where the selection state is to stay as it is and no event is to be
    fired; the next [selectNextResource] then only moves the index back to
    -1 and selects nothing. *)
Theorem selectPreviousResource_without_selection :
  selectedIndex Samples.fresh_repository = -1
  ∧ selectPreviousResource Samples.fresh_repository
    = (None, with_selectedIndex (-2) Samples.fresh_repository,
       [RepositoryDidChange])
  ∧ selectNextResource (with_selectedIndex (-2) Samples.fresh_repository)
    = (None, Samples.fresh_repository, [RepositoryDidChange]).
Proof. by vm_compute. Qed.

(** *** The service *)

Lemma map_set_fresh {V} k (v : V) (m : Map V) :
  k ∉ m.*1 → map_set k v m = m ++ [(k, v)].
Proof.
  induction m as [|[k' v'] m IH]; simpl; [done|].
  intros N. apply not_elem_of_cons in N as [N1 N2].
  rewrite bool_decide_eq_false_2 by done. by rewrite IH.
Qed.

Lemma filter_all {A} (P : A → Prop) `{∀ x, Decision (P x)} (l : list A) :
  Forall P l → filter P l = l.
Proof.
  induction 1 as [|x l Px F IH]; [done|].
  by rewrite filter_cons_True, IH.
Qed.

Lemma filter_iff_on {A} (P Q : A → Prop)
    `{∀ x, Decision (P x), ∀ x, Decision (Q x)} (l : list A) :
  (∀ x, x ∈ l → P x ↔ Q x) → filter P l = filter Q l.
Proof.
  induction l as [|a l IH]; intros E; [done|].
  assert (filter P l = filter Q l) as IH'.
  { apply IH. intros x I. apply E. by right. }
  destruct (decide (P a)) as [Pa|NPa].
  - rewrite !filter_cons_True; [by rewrite IH'|..]; try done.
    apply E; [by left|done].
  - rewrite !filter_cons_False; [done|..]; try done.
    intros Qa. apply NPa, E; [by left|done].
Qed.

Lemma NoDup_keys_functional {V} (m : Map V) k v1 v2 :
  NoDup m.*1 → (k, v1) ∈ m → (k, v2) ∈ m → v1 = v2.
Proof.
  induction m as [|[k' v'] m IH]; [by intros _ ?%elem_of_nil|].
  rewrite fmap_cons. intros [N1 N2]%NoDup_cons.
  intros [E1|I1]%elem_of_cons [E2|I2]%elem_of_cons.
  - congruence.
  - injection E1 as -> ->. destruct N1.
    apply list_elem_of_fmap. by exists (k', v2).
  - injection E2 as -> ->. destruct N1.
    apply list_elem_of_fmap. by exists (k', v1).
  - by apply IH.
Qed.

Lemma map_delete_filter {V} k (m : Map V) :
  NoDup m.*1 → map_delete k m = filter (λ e, e.1 ≠ k) m.
Proof.
  induction m as [|[k' v'] m IH]; [done|].
  rewrite fmap_cons. intros [N1 N2]%NoDup_cons. cbn [map_delete].
  case_bool_decide as E.
  - subst k'. rewrite filter_cons_False by (simpl; auto).
    symmetry. apply filter_all. apply Forall_forall.
    intros [k2 v2] I E. simpl in E. subst k2.
    apply N1. apply list_elem_of_fmap. by exists (k, v2).
  - rewrite filter_cons_True by done. by rewrite IH.
Qed.

Lemma registerScmProvider_eq p o s :
  registerScmProvider p o s =
    if map_has (provider_id p) (_repositories s) then
      (Throw (lit "SCM Provider " ++ provider_id p ++ lit " already exists."),
       s, [])
    else
      let r := length (heap s) in
      let s1 := with_repositories (map_set (provider_id p) r (_repositories s))
                  (with_heap (heap s ++ [(new_ScmRepository p o).1]) s) in
      if bool_decide (length (_repositories s1) = 1%nat) then
        (Return r, with_selected (Some r) s1,
         (RepositoryEvent r <$> (new_ScmRepository p o).2)
           ++ [DidAddRepository r; DidChangeSelectedRepository (Some r)])
      else
        (Return r, s1,
         (RepositoryEvent r <$> (new_ScmRepository p o).2)
           ++ [DidAddRepository r]).
Proof.
  unfold registerScmProvider, alloc_ScmRepository, set_selectedRepository.
  eff_unfold. destruct (map_has _ _); [done|].
  destruct (new_ScmRepository p o) as [repo l]. simpl.
  case_bool_decide; simpl; by rewrite ?app_nil_r.
Qed.

Lemma dispose_eq r s :
  dispose r s =
    match heap s !! r with
    | None => (tt, s, [])
    | Some repo =>
        let s1 := with_repositories
                    (map_delete (provider_id (provider repo)) (_repositories s)) s in
        if bool_decide (_selectedRepository s = Some r) then
          (tt, with_selected (map_first_value (_repositories s1)) s1,
           [RepositoryDisposed r; DidRemoveRepository r;
            DidChangeSelectedRepository (map_first_value (_repositories s1))])
        else (tt, s1, [RepositoryDisposed r; DidRemoveRepository r])
    end.
Proof.
  unfold dispose, set_selectedRepository. eff_unfold.
  destruct (heap s !! r) as [repo|]; [|done]. simpl.
  by case_bool_decide.
Qed.

Lemma entries_wf_register p o s :
  entries_wf s → entries_wf (state (registerScmProvider p o s)).
Proof.
  intros [ND W]. rewrite registerScmProvider_eq.
  unfold map_has. case_bool_decide as I; [done|].
  rewrite map_set_fresh by done.
  assert (entries_wf
    (with_repositories (_repositories s ++ [(provider_id p, length (heap s))])
       (with_heap (heap s ++ [(new_ScmRepository p o).1]) s))) as G.
  { split; simpl.
    - rewrite fmap_app. apply NoDup_app. split_and!; [done| |].
      + intros k K K2. simpl in K2. apply list_elem_of_singleton in K2.
        by subst.
      + apply NoDup_singleton.
    - intros k r [E|E]%elem_of_app.
      + destruct (W k r E) as (repo & L & Id). exists repo.
        split; [|done]. by apply lookup_app_l_Some.
      + apply list_elem_of_singleton in E. injection E as -> ->.
        exists (new_ScmRepository p o).1. split.
        * by rewrite lookup_app_r, Nat.sub_diag.
        * by rewrite new_ScmRepository_provider. }
  simpl. by case_bool_decide.
Qed.

Lemma entries_wf_dispose r s : entries_wf s → entries_wf (state (dispose r s)).
Proof.
  intros [ND W]. rewrite dispose_eq.
  destruct (heap s !! r) as [repo|] eqn:L; [|done].
  assert (entries_wf (with_repositories
    (map_delete (provider_id (provider repo)) (_repositories s)) s)) as G.
  { rewrite map_delete_filter by done. split; simpl.
    - eapply sublist_NoDup; [exact ND|].
      apply fmap_sublist, sublist_filter.
    - intros k r' [_ E]%list_elem_of_filter. by apply W. }
  simpl. by case_bool_decide.
Qed.

Lemma entries_wf_reachable s : service_reachable s → entries_wf s.
Proof.
  induction 1 as [|s op R IH].
  - split; simpl; [apply NoDup_nil_2|]. by intros k r I%elem_of_nil.
  - destruct op; simpl.
    + pose proof (entries_wf_register p o s IH) as G.
      unfold mbind, eff_mbind, eff_bind, skip, eff_ret.
      by destruct (registerScmProvider p o s) as [[??]?].
    + by apply entries_wf_dispose.
    + exact IH.
Qed.

(** C4.  When a repository is already registered under the provider's id,
    [registerScmProvider] throws [SCM Provider <id> already exists.] and
    leaves the service as it was (repository map and selected repository
    included), firing nothing.  Otherwise it creates a new repository,
    files it under the provider's id after the existing entries, fires
    [onDidAddRepository] with it, and selects it, firing
    [onDidChangeSelectedRepository], exactly when the map then has this
    single entry; the selected repository is left alone otherwise. *)
Theorem registerScmProvider_spec p o s :
  if decide (provider_id p ∈ (_repositories s).*1) then
    registerScmProvider p o s
    = (Throw (lit "SCM Provider " ++ provider_id p ++ lit " already exists."),
       s, [])
  else
    ∃ r s',
      heap s !! r = None
      ∧ heap s' = heap s ++ [(new_ScmRepository p o).1]
      ∧ heap s' !! r = Some (new_ScmRepository p o).1
      ∧ _repositories s' = _repositories s ++ [(provider_id p, r)]
      ∧ if decide (length (_repositories s') = 1%nat) then
          _selectedRepository s' = Some r
          ∧ registerScmProvider p o s
            = (Return r, s',
               (RepositoryEvent r <$> (new_ScmRepository p o).2)
                 ++ [DidAddRepository r; DidChangeSelectedRepository (Some r)])
        else
          _selectedRepository s' = _selectedRepository s
          ∧ registerScmProvider p o s
            = (Return r, s',
               (RepositoryEvent r <$> (new_ScmRepository p o).2)
                 ++ [DidAddRepository r]).
Proof.
  rewrite registerScmProvider_eq. unfold map_has.
  destruct (decide (provider_id p ∈ (_repositories s).*1)) as [I|N].
  - by rewrite bool_decide_eq_true_2.
  - rewrite bool_decide_eq_false_2 by done. cbn zeta.
    rewrite map_set_fresh by done.
    set (r := length (heap s)).
    set (s1 := with_repositories _ _).
    assert (heap s !! r = None) as Fresh by (by apply lookup_ge_None_2).
    assert ((heap s ++ [(new_ScmRepository p o).1]) !! r
            = Some (new_ScmRepository p o).1) as New.
    { subst r. by rewrite lookup_app_r, Nat.sub_diag. }
    exists r. case_bool_decide as L.
    + exists (with_selected (Some r) s1). simpl.
      split_and!; try done. by rewrite decide_True.
    + exists s1. simpl.
      split_and!; try done. by rewrite decide_False.
Qed.

(** C8.  Disposing a repository that [registerScmProvider] returned
    drops the entry filed under its provider's id, so that the repository
    is no longer in the map (when it was registered, exactly its own
    entry goes and the others keep their order), runs the repository's
    own [dispose], fires [onDidRemoveRepository] with it, and, exactly
    when it was the selected repository, selects the first remaining
    repository in insertion order, or [undefined] when the map is empty,
    firing [onDidChangeSelectedRepository]. *)
Theorem dispose_spec s r repo :
  service_reachable s →
  heap s !! r = Some repo →
  ∃ s',
    dispose r s
    = (tt, s',
       [RepositoryDisposed r; DidRemoveRepository r]
         ++ (if decide (_selectedRepository s = Some r)
             then [DidChangeSelectedRepository
                     (map_first_value (_repositories s'))]
             else []))
    ∧ heap s' = heap s
    ∧ _repositories s'
      = filter (λ e, e.1 ≠ provider_id (provider repo)) (_repositories s)
    ∧ (r ∉ (_repositories s').*2)
    ∧ ((provider_id (provider repo), r) ∈ _repositories s →
         _repositories s' = filter (λ e, e.2 ≠ r) (_repositories s))
    ∧ _selectedRepository s'
      = (if decide (_selectedRepository s = Some r)
         then map_first_value (_repositories s')
         else _selectedRepository s).
Proof.
  intros [ND W]%entries_wf_reachable L.
  rewrite dispose_eq, L. cbn zeta.
  set (s1 := with_repositories _ s).
  assert (_repositories s1
          = filter (λ e, e.1 ≠ provider_id (provider repo)) (_repositories s))
    as Del by (by apply map_delete_filter).
  assert (r ∉ (_repositories s1).*2) as Gone.
  { rewrite Del. intros ([k r'] & E & [K I]%list_elem_of_filter)%list_elem_of_fmap.
    simpl in E, K. subst r'. destruct (W k r I) as (repo' & L' & Id).
    congruence. }
  assert ((provider_id (provider repo), r) ∈ _repositories s →
          _repositories s1 = filter (λ e, e.2 ≠ r) (_repositories s)) as Only.
  { intros Reg. rewrite Del. apply filter_iff_on. intros [k r'] I. simpl.
    split; intros NE E; apply NE.
    - subst r'. destruct (W k r I) as (repo' & L' & Id). congruence.
    - subst k. by eapply NoDup_keys_functional. }
  case_bool_decide as Sel.
  - exists (with_selected (map_first_value (_repositories s1)) s1).
    rewrite !decide_True by done. by split_and!.
  - exists s1. rewrite !decide_False by done. by split_and!.
Qed.

Lemma dispose_spec_witness :
  ∃ s',
    dispose 0 Samples.two_repositories
    = (tt, s',
       [RepositoryDisposed 0; DidRemoveRepository 0;
        DidChangeSelectedRepository (Some 1%nat)])
    ∧ _repositories s' = [(lit "git:/b", 1%nat)]
    ∧ _selectedRepository s' = Some 1%nat.
Proof.
  destruct (dispose_spec Samples.two_repositories 0 Samples.fresh_repository)
    as (s' & E & _ & M & _ & _ & S).
  - apply (service_op _ (Register _ _)), (service_op _ (Register _ _)),
      service_new.
  - reflexivity.
  - exists s'. split_and!.
    + rewrite E, M. reflexivity.
    + rewrite M. reflexivity.
    + rewrite S, M. reflexivity.
Defined.

End ScmFacts.

Module GitFacts.
Import Scm GitContribution.


(** C10.  The resource-level table names exactly the group labels
    [Changes], [Staged changes] and [Merged Changes], in this order, with
    the commands open-changed-file, discard, stage for [Changes] and for
    [Merged Changes] and open-changed-file, unstage for [Staged changes];
    the group-level table gives discard-all and stage-all to [Changes],
    unstage-all to [Staged changes] and stage-all to [Merged Changes].
    A label other than these three gets no command from either table. *)
Theorem registered_commands :
  call_groupId <$> registerScmResourceCommands
    = [lit "Changes"; lit "Staged changes"; lit "Merged Changes"]
  ∧ call_groupId <$> registerScmGroupCommands
    = [lit "Changes"; lit "Staged changes"; lit "Merged Changes"]
  ∧ ∀ l,
      registered_for registerScmResourceCommands l
      = (if decide (l = lit "Changes") then
           [[id GIT_COMMANDS.OPEN_CHANGED_FILE; id GIT_COMMANDS.DISCARD;
             id GIT_COMMANDS.STAGE]]
         else if decide (l = lit "Staged changes") then
           [[id GIT_COMMANDS.OPEN_CHANGED_FILE; id GIT_COMMANDS.UNSTAGE]]
         else if decide (l = lit "Merged Changes") then
           [[id GIT_COMMANDS.OPEN_CHANGED_FILE; id GIT_COMMANDS.DISCARD;
             id GIT_COMMANDS.STAGE]]
         else [])
      ∧ registered_for registerScmGroupCommands l
        = (if decide (l = lit "Changes") then
             [[id GIT_COMMANDS.DISCARD_ALL; id GIT_COMMANDS.STAGE_ALL]]
           else if decide (l = lit "Staged changes") then
             [[id GIT_COMMANDS.UNSTAGE_ALL]]
           else if decide (l = lit "Merged Changes") then
             [[id GIT_COMMANDS.STAGE_ALL]]
           else []).
Proof.
  split; [reflexivity|]. split; [reflexivity|].
  intros l. unfold registered_for, registerScmResourceCommands,
    registerScmGroupCommands.
  rewrite !filter_cons, !filter_nil. cbn [call_groupId].
  destruct (decide (l = lit "Changes")) as [->|N1].
  { split; reflexivity. }
  destruct (decide (l = lit "Staged changes")) as [->|N2].
  { split; reflexivity. }
  destruct (decide (l = lit "Merged Changes")) as [->|N3].
  { split; reflexivity. }
  rewrite !decide_False by (by intros E; symmetry in E).
  split; reflexivity.
Qed.

Section StatusFacts.
Context {GitFileStatus : Type} `{EqDecision GitFileStatus}.
Context (Conflicted : GitFileStatus).

Lemma truthy_str_spec (x : option jsstring) :
  truthy_str x = true ↔ ∃ name, x = Some name ∧ name ≠ [].
Proof.
  destruct x as [[|c name]|]; simpl; split; try done.
  - by intros (? & [= <-] & ?).
  - intros _. by eexists.
  - by intros (? & ? & ?).
Qed.

Lemma hasConflicts_spec (cs : list (GitFileChange GitFileStatus)) :
  hasConflicts Conflicted cs = true
  ↔ Exists (λ c, status c = Conflicted) cs.
Proof.
  unfold hasConflicts. rewrite existsb_exists, Exists_exists. split.
  - intros (c & I & E). exists c. split; [by apply list_elem_of_In|].
    by apply bool_decide_eq_true in E.
  - intros (c & I & E). exists c. split; [by apply list_elem_of_In|].
    by apply bool_decide_eq_true.
Qed.

Lemma allStaged_spec (cs : list (GitFileChange GitFileStatus)) :
  allStaged cs = true ↔ Forall (λ c, staged c = Some true) cs.
Proof.
  unfold allStaged. induction cs as [|c cs IH]; simpl.
  - split; [constructor|done].
  - rewrite Forall_cons, <- IH. unfold truthy_bool.
    destruct (staged c) as [[]|]; simpl; split; try done; try tauto.
    + by intros [[=] _].
    + by intros [[=] _].
Qed.

(** C5.  On a Git status event with an SCM provider selected, the
    listener publishes one status-bar command, the checkout command,
    whose text is [$(code-fork) ] followed by a branch part and a dirty
    marker (without a selected provider it publishes nothing).  The
    branch part is the branch name when there is one; without a branch
    (the field is [undefined] or empty) it is the first 8 code units of
    the current head, and [NO-HEAD] when there is no head either.  The
    marker is empty for an empty change list; otherwise it is [!] when
    some change is [Conflicted], [+] when none is and every change is
    staged, and [*] in the remaining case. *)
Theorem checkout_text (s : WorkingDirectoryStatus GitFileStatus) :
  ∃ b d,
    onGitEvent Conflicted true s
    = [ SetStatus s;
        SetStatusBarCommands
          [ {| cmd_id := GIT_CHECKOUT;
               cmd_text := lit "$(code-fork) " ++ b ++ d;
               cmd_tooltip := None;
               cmd_command := Some (id GIT_COMMANDS.CHECKOUT) |} ] ]
    ∧ onGitEvent Conflicted false s = []
    ∧ (∀ name, branch s = Some name → name ≠ [] → b = name)
    ∧ (branch s = None ∨ branch s = Some [] →
       ∀ head, currentHead s = Some head → head ≠ [] → b = take 8 head)
    ∧ (branch s = None ∨ branch s = Some [] →
       currentHead s = None ∨ currentHead s = Some [] →
       b = lit "NO-HEAD")
    ∧ (changes s = [] → d = [])
    ∧ (Exists (λ c, status c = Conflicted) (changes s) → d = lit "!")
    ∧ (changes s ≠ [] →
       ¬ Exists (λ c, status c = Conflicted) (changes s) →
       Forall (λ c, staged c = Some true) (changes s) →
       d = lit "+")
    ∧ (changes s ≠ [] →
       ¬ Exists (λ c, status c = Conflicted) (changes s) →
       ¬ Forall (λ c, staged c = Some true) (changes s) →
       d = lit "*").
Proof.
  exists (event_branch s), (event_dirty Conflicted s).
  split; [reflexivity|]. split; [reflexivity|].
  unfold event_branch, event_dirty, substring0.
  split_and!.
  - intros name B N. rewrite B. by destruct name.
  - intros [B|B] head H N; rewrite B, H; by destruct head.
  - by intros [B|B] [H|H]; rewrite B, H.
  - by intros ->.
  - intros C. pose proof C as C'. apply hasConflicts_spec in C'.
    rewrite C'. destruct (changes s); [by apply Exists_nil in C|done].
  - intros NE NC St. destruct (changes s) as [|c cs] eqn:E; [done|].
    change (0 <? Z.of_nat (length (c :: cs))) with true. cbn iota.
    apply allStaged_spec in St. rewrite St.
    destruct (hasConflicts Conflicted (c :: cs)) eqn:C; [|done].
    by apply hasConflicts_spec in C.
  - intros NE NC NSt. destruct (changes s) as [|c cs] eqn:E; [done|].
    change (0 <? Z.of_nat (length (c :: cs))) with true. cbn iota.
    destruct (hasConflicts Conflicted (c :: cs)) eqn:C.
    { by apply hasConflicts_spec in C. }
    destruct (allStaged (c :: cs)) eqn:St; [|done].
    by apply allStaged_spec in St.
Qed.

(** *** commit *)

Lemma on_repository_set_issue x r :
  on_repository (on_input (set_issue x)) r
  = if bool_decide (_issue (input r) = x) then (tt, r, [])
    else (tt, with_input (with_issue x (input r)) r,
          [OfRepository InputDidChange; OfRepository RepositoryDidChange]).
Proof.
  unfold on_repository, on_input. eff_unfold.
  rewrite ScmFacts.set_issue_eq.
  case_bool_decide; [|done]. by rewrite ScmFacts.with_input_id.
Qed.

Lemma on_repository_focus r :
  on_repository (on_input focus) r = (tt, r, [OfRepository InputFocus]).
Proof.
  unfold on_repository, on_input, focus. eff_unfold. simpl.
  by rewrite ScmFacts.with_input_id.
Qed.

Lemma git_commit_calls_of_repository (l : list ScmEvent) :
  git_commit_calls (l ≫= λ e, [OfRepository e]) = [].
Proof. unfold git_commit_calls. by induction l. Qed.

Lemma on_repository_set_value v r :
  ∃ r' l,
    on_repository (on_input (set_value v)) r = (tt, r', l)
    ∧ _value (input r') = v
    ∧ git_commit_calls l = [].
Proof.
  unfold on_repository. eff_unfold.
  destruct (ScmFacts.on_input_set_value v r) as (r' & l & -> & Val).
  eexists _, _. split; [reflexivity|]. split; [done|].
  apply git_commit_calls_of_repository.
Qed.

Lemma git_commit_calls_app (l1 l2 : list GitEvent) :
  git_commit_calls (l1 ++ l2) = git_commit_calls l1 ++ git_commit_calls l2.
Proof. unfold git_commit_calls. apply bind_app. Qed.



(** *** addSignOff *)

Lemma addSignOff_step (git : GitAnswers GitFileStatus) (r : ScmRepository) :
  ∃ r1 l1,
    addSignOff git (Some r) = (tt, Some r1, l1)
    ∧ OfRepository InputFocus ∈ l1
    ∧ _value (input r1)
      = (if endsWith (_value (input r))
              (signOff_line (trim (user_name_stdout git))
                 (trim (user_email_stdout git)))
         then substr0 (_value (input r))
                (jslength (_value (input r))
                 - jslength (signOff_line (trim (user_name_stdout git))
                               (trim (user_email_stdout git))))
         else _value (input r)
                ++ signOff_line (trim (user_name_stdout git))
                     (trim (user_email_stdout git))).
Proof.
  unfold addSignOff, with_selectedScmRepository. eff_unfold.
  set (so := signOff_line _ _).
  destruct (endsWith (_value (input r)) so).
  - destruct (on_repository_set_value
                (substr0 (_value (input r))
                   (jslength (_value (input r)) - jslength so)) r)
      as (r1 & l1 & -> & V1 & _).
    rewrite on_repository_focus.
    eexists _, _. split; [reflexivity|]. split; [in_log|done].
  - destruct (on_repository_set_value (_value (input r) ++ so) r)
      as (r1 & l1 & -> & V1 & _).
    rewrite on_repository_focus.
    eexists _, _. split; [reflexivity|]. split; [in_log|done].
Qed.

(** C9, as the source has it.  Without a selected SCM repository
    [addSignOff] does nothing.  With one, each call focuses the input
    and toggles the suffix made of two line feeds and
    [Signed-off-by: <name> <email>], name and email being the trimmed
    outputs of [git config]: the suffix is appended when the value does
    not end with it, and exactly this suffix is removed when it does.
    Two calls with the same answers restore the original value
    provided the value does not end with two copies of the suffix. *)
Theorem addSignOff_toggles (git : GitAnswers GitFileStatus) (r : ScmRepository) :
  addSignOff git None = (tt, None, [])
  ∧ ∃ r1 l1,
      addSignOff git (Some r) = (tt, Some r1, l1)
      ∧ OfRepository InputFocus ∈ l1
      ∧ (if endsWith (_value (input r))
              (signOff_line (trim (user_name_stdout git))
                 (trim (user_email_stdout git)))
         then _value (input r)
              = _value (input r1)
                  ++ signOff_line (trim (user_name_stdout git))
                       (trim (user_email_stdout git))
         else _value (input r1)
              = _value (input r)
                  ++ signOff_line (trim (user_name_stdout git))
                       (trim (user_email_stdout git)))
      ∧ (endsWith (_value (input r))
           (signOff_line (trim (user_name_stdout git))
              (trim (user_email_stdout git))
            ++ signOff_line (trim (user_name_stdout git))
                 (trim (user_email_stdout git))) = false →
         input_value (state (addSignOff git (Some r1)))
         = Some (_value (input r))).
Proof.
  split; [reflexivity|].
  destruct (addSignOff_step git r) as (r1 & l1 & E1 & F1 & V1).
  destruct (addSignOff_step git r1) as (r2 & l2 & E2 & F2 & V2).
  exists r1, l1. split; [done|]. split; [done|].
  rewrite E2. cbn [state input_value fst snd fmap option_fmap option_map].
  rewrite V2. clear E1 E2 F1 F2 V2.
  set (so := signOff_line _ _) in *.
  destruct (endsWith (_value (input r)) so) eqn:End.
  - apply JsStringFacts.endsWith_true in End as [p P].
    rewrite P, JsStringFacts.substr0_suffix in V1. rewrite V1, P.
    split; [done|]. intros Twice.
    destruct (endsWith p so) eqn:End2; [|done].
    apply JsStringFacts.endsWith_true in End2 as [q Q].
    apply JsStringFacts.endsWith_false in Twice. destruct Twice.
    exists q. by rewrite Q, <- app_assoc.
  - split; [done|]. intros _. rewrite V1.
    rewrite (proj2 (JsStringFacts.endsWith_true _ _))
      by (by exists (_value (input r))).
    by rewrite JsStringFacts.substr0_suffix.
Qed.

End StatusFacts.

(** The commit input holds two copies of the sign-off suffix: the first
    call of [addSignOff] removes one copy, the second call removes the
    other, and the value is empty instead of restored. *)
Lemma addSignOff_twice_not_identity :
  input_value
    (state (addSignOff sample_answers
              (state (addSignOff sample_answers
                        (with_message (sample_signOff ++ sample_signOff))))))
  = Some []
  ∧ input_value (with_message (sample_signOff ++ sample_signOff)) ≠ Some [].
Proof. split; [by vm_compute|]. by vm_compute. Qed.

Lemma addSignOff_toggles_witness :
  input_value
    (state (addSignOff sample_answers
              (state (addSignOff sample_answers
                        (with_message (lit "Fix typo"))))))
  = Some (lit "Fix typo").
Proof.
  destruct (addSignOff_toggles sample_answers
              (with_input (with_value (lit "Fix typo")
                             (input Samples.fresh_repository))
                 Samples.fresh_repository))
    as (_ & r1 & l1 & E & _ & _ & Twice).
  unfold with_message. rewrite E. apply Twice. by vm_compute.
Defined.

(** The three outcomes of [commit] on the sample repository. *)
Example commit_blank_message :
  events (commit sample_answers
            {| signOff := None; amend := None; opt_message := None |}
            (with_message (lit "   ")))
  = [OfRepository InputDidChange; OfRepository RepositoryDidChange;
     OfRepository InputFocus].
Proof. by vm_compute. Qed.

Example commit_staged_change :
  git_commit_calls
    (events (commit sample_answers
               {| signOff := Some true; amend := None; opt_message := None |}
               (with_message (lit "Fix typo"))))
  = [(lit "Fix typo", Some true, None)].
Proof. by vm_compute. Qed.

End GitFacts.

Module ScmAccessorsFacts.
Import Scm ScmAccessors.

(** *** indexOf *)

Lemma indexOf_range l x : -1 ≤ indexOf l x < Z.of_nat (length l).
Proof.
  induction l as [|y l IH]; simpl; [lia|].
  case_bool_decide; [lia|].
  destruct (Z.ltb_spec (indexOf l x) 0); lia.
Qed.

Lemma indexOf_absent l x : indexOf l x = -1 ↔ x ∉ l.
Proof.
  induction l as [|y l IH]; simpl.
  - split; [intros _; apply not_elem_of_nil|done].
  - rewrite not_elem_of_cons. case_bool_decide as E.
    + split; [lia|]. intros [N _]. by destruct N.
    + pose proof (indexOf_range l x).
      destruct (Z.ltb_spec (indexOf l x) 0).
      * split; [|done]. intros _. split; [congruence|]. apply IH. lia.
      * split; [lia|]. intros [_ N]. apply IH in N. lia.
Qed.

Lemma indexOf_first l x i :
  indexOf l x = Z.of_nat i →
  l !! i = Some x ∧ ∀ j, (j < i)%nat → l !! j ≠ Some x.
Proof.
  revert i. induction l as [|y l IH]; intros i; simpl; [lia|].
  case_bool_decide as E.
  - intros I. assert (i = 0%nat) as -> by lia. subst y.
    split; [done|]. intros j J. lia.
  - destruct (Z.ltb_spec (indexOf l x) 0); [lia|].
    intros I. destruct i as [|i]; [lia|].
    destruct (IH i) as [L F]; [lia|]. split; [done|].
    intros [|j] J; simpl; [congruence|]. apply F. lia.
Qed.

Lemma array_get_indexOf l x : x ∈ l → array_get l (indexOf l x) = Some x.
Proof.
  intros I. pose proof (indexOf_range l x) as R.
  assert (indexOf l x ≠ -1) as N by (by rewrite indexOf_absent; intros C).
  unfold array_get. destruct (Z.ltb_spec (indexOf l x) 0); [lia|].
  apply (indexOf_first l x (Z.to_nat (indexOf l x))). lia.
Qed.

Lemma array_get_absent l x : x ∉ l → array_get l (indexOf l x) = None.
Proof. intros N. apply indexOf_absent in N. by rewrite N. Qed.

(** X1.  Assigning a resource to [selectedResource] fires [onDidChange] once and
    keeps the resource list; afterwards the getter returns that resource
    when the list holds it, the index being that of its first occurrence,
    and [undefined] when the list does not hold it. *)
Theorem selectedResource_set_get (r : ScmRepository) (x : ScmResource) :
  events (set_selectedResource (Some x) r) = [RepositoryDidChange]
  ∧ _resources (state (set_selectedResource (Some x) r)) = _resources r
  ∧ selectedResource (state (set_selectedResource (Some x) r))
    = (if decide (x ∈ _resources r) then Some x else None)
  ∧ ∀ i, selectedIndex (state (set_selectedResource (Some x) r)) = Z.of_nat i →
      _resources r !! i = Some x
      ∧ ∀ j, (j < i)%nat → _resources r !! j ≠ Some x.
Proof.
  unfold set_selectedResource, fireDidChange, selectedResource. eff_unfold.
  cbn [_resources selectedIndex with_selectedIndex].
  split_and!; [done|done| |].
  - destruct (decide (x ∈ _resources r)).
    + by apply array_get_indexOf.
    + by apply array_get_absent.
  - intros i. apply indexOf_first.
Qed.

(** Assigning [undefined] to [selectedResource] clears the selection,
    whatever the index was, and fires [onDidChange] once. *)
Lemma selectedResource_clear (r : ScmRepository) :
  set_selectedResource None r
  = (tt, with_selectedIndex (-1) r, [RepositoryDidChange])
  ∧ selectedResource (with_selectedIndex (-1) r) = None.
Proof. done. Qed.

Lemma run_op_index_bound op r :
  selectedIndex r < Z.of_nat (length (_resources r)) →
  selectedIndex (state (run_op op r))
  < Z.of_nat (length (_resources (state (run_op op r)))).
Proof.
  intros B. destruct op; simpl.
  - unfold onProviderDidChange, updateResources, updateSelection,
      set_selectedResource, fireDidChange. eff_unfold.
    cbn [_resources selectedIndex with_selectedIndex with_resources].
    destruct (selectedResource _);
      [apply indexOf_range|pose proof (Nat2Z.is_nonneg (length (foldl
         (λ acc g, acc ++ group_resources g) []
         (groups p)))); simpl in *; lia].
  - unfold set_selectedResource, fireDidChange. eff_unfold.
    cbn [_resources selectedIndex with_selectedIndex].
    destruct x; [apply indexOf_range|lia].
  - unfold selectNextResource, fireDidChange, truthy_num. eff_unfold.
    destruct (Z.eqb_spec (selectedIndex r) 0);
      destruct (Z.ltb_spec (selectedIndex r) (Z.of_nat (length (_resources r)) - 1));
      destruct (Z.eqb_spec (Z.of_nat (length (_resources r))) 0);
      destruct (Z.eqb_spec (selectedIndex r) (-1));
      cbn [negb andb]; cbn; lia.
  - unfold selectPreviousResource, fireDidChange, truthy_num. eff_unfold.
    destruct (Z.eqb_spec (selectedIndex r) 0); cbn; lia.
  - unfold on_input. eff_unfold. by destruct (set_value v (input r)) as [[??]?].
  - unfold on_input. eff_unfold. by destruct (set_issue x (input r)) as [[??]?].
  - done.
Qed.

(** X2.  In every state of a repository reached from its constructor, the
    selected index lies below the number of resources: the selection never
    points past the end of the list. *)
Theorem selectedIndex_below_length (r : ScmRepository) :
  reachable r → selectedIndex r < Z.of_nat (length (_resources r)).
Proof.
  induction 1 as [p o|r op R IH].
  - rewrite ScmFacts.new_ScmRepository_state.
    unfold updateResources, updateSelection, set_selectedResource,
      fireDidChange. eff_unfold.
    cbn [_resources selectedIndex with_selectedIndex with_resources].
    destruct (selectedResource _); [apply indexOf_range|simpl; lia].
  - by apply run_op_index_bound.
Qed.

Lemma selectedIndex_below_length_witness :
  selectedIndex Samples.first_selected
  < Z.of_nat (length (_resources Samples.first_selected)).
Proof.
  apply (selectedIndex_below_length Samples.first_selected).
  apply (reachable_op _ SelectNextResource), reachable_new.
Defined.

(** X3.  A change event of the provider keeps the selection by position: the
    resource selected afterwards is the one the new list holds at the old
    index, or none when the new list has no such index.  The index itself
    is brought back into the range from -1 to the last index, so it never
    grows: it becomes the first position at which the new list holds that
    resource, no earlier position holding it, and -1 when there is no such
    resource. *)
Theorem provider_change_selects_by_position (r : ScmRepository) (p : ScmProvider) :
  _resources (state (onProviderDidChange p r))
  = concat (group_resources <$> groups p)
  ∧ selectedResource (state (onProviderDidChange p r))
    = array_get (concat (group_resources <$> groups p)) (selectedIndex r)
  ∧ -1 ≤ selectedIndex (state (onProviderDidChange p r))
    < Z.of_nat (length (concat (group_resources <$> groups p)))
  ∧ (selectedIndex (state (onProviderDidChange p r)) = -1
     ∨ selectedIndex (state (onProviderDidChange p r)) ≤ selectedIndex r)
  ∧ match array_get (concat (group_resources <$> groups p)) (selectedIndex r) with
    | Some x =>
        ∃ i : nat,
          selectedIndex (state (onProviderDidChange p r)) = Z.of_nat i
          ∧ concat (group_resources <$> groups p) !! i = Some x
          ∧ ∀ j : nat, (j < i)%nat →
              concat (group_resources <$> groups p) !! j ≠ Some x
    | None => selectedIndex (state (onProviderDidChange p r)) = -1
    end.
Proof.
  unfold onProviderDidChange, updateResources, updateSelection,
    set_selectedResource, fireDidChange, selectedResource. eff_unfold.
  cbn [_resources selectedIndex with_selectedIndex with_resources with_provider
       provider].
  rewrite ScmFacts.foldl_push_all. cbn [app].
  set (l := concat (group_resources <$> groups p)).
  split; [done|].
  destruct (array_get l (selectedIndex r)) as [x|] eqn:G.
  - assert (x ∈ l) as I by (by eapply ScmFacts.array_get_elem_of).
    pose proof (indexOf_range l x) as R.
    assert (indexOf l x ≠ -1) as NA by (by rewrite indexOf_absent; intros []).
    destruct (indexOf_first l x (Z.to_nat (indexOf l x))) as [L F]; [lia|].
    split; [by apply array_get_indexOf|]. split; [apply indexOf_range|].
    split.
    + right. unfold array_get in G.
      destruct (Z.ltb_spec (selectedIndex r) 0) as [|NN]; [done|].
      destruct (decide (indexOf l x ≤ selectedIndex r)) as [|GT]; [done|].
      destruct (F (Z.to_nat (selectedIndex r))); [lia|done].
    + exists (Z.to_nat (indexOf l x)). split_and!; [|done..].
      cbn [fst snd selectedIndex with_selectedIndex]. lia.
  - cbn [fst snd selectedIndex with_selectedIndex].
    split; [by unfold array_get|]. split; [lia|]. split; [by left|done].
Qed.

(** X4.  [selectNextResource] moves to the next index exactly when the index is
    not 0 and lies below the last one, and then fires [onDidChange]; in
    every other state it changes nothing and fires nothing.  Its second
    branch, for index -1 on a list with resources, is never taken: that
    case already moves to index 0 through the first branch. *)
Theorem selectNextResource_cases (r : ScmRepository) :
  selectNextResource r
  = if decide (selectedIndex r ≠ 0
               ∧ selectedIndex r < Z.of_nat (length (_resources r)) - 1)
    then (array_get (_resources r) (selectedIndex r + 1),
          with_selectedIndex (selectedIndex r + 1) r, [RepositoryDidChange])
    else (selectedResource r, r, []).
Proof.
  unfold selectNextResource, fireDidChange, truthy_num. eff_unfold.
  destruct (decide _) as [[NZ LT]|N].
  - destruct (Z.eqb_spec (selectedIndex r) 0); [done|].
    by destruct (Z.ltb_spec (selectedIndex r)
                   (Z.of_nat (length (_resources r)) - 1)); [|lia].
  - destruct (Z.eqb_spec (selectedIndex r) 0) as [Z0|NZ]; cbn [negb andb].
    + destruct (Z.eqb_spec (selectedIndex r) (-1)); [lia|].
      by rewrite andb_false_r.
    + destruct (Z.ltb_spec (selectedIndex r)
                  (Z.of_nat (length (_resources r)) - 1)) as [LT|GE].
      { destruct N. done. }
      destruct (Z.eqb_spec (selectedIndex r) (-1)) as [M|]; cbn [andb].
      * destruct (Z.eqb_spec (Z.of_nat (length (_resources r))) 0); [done|lia].
      * by rewrite andb_false_r.
Qed.

(** X5.  From an index that is neither 0 nor -1 and lies below the last one,
    [selectPreviousResource] undoes [selectNextResource]: the repository is
    as before and the resource returned is the one that was selected. *)
Theorem selectPrevious_undoes_selectNext (r : ScmRepository) :
  selectedIndex r ≠ 0 →
  selectedIndex r ≠ -1 →
  selectedIndex r < Z.of_nat (length (_resources r)) - 1 →
  selectPreviousResource (state (selectNextResource r))
  = (selectedResource r, r, [RepositoryDidChange])
  ∧ events (selectNextResource r) = [RepositoryDidChange].
Proof.
  intros NZ NM LT.
  rewrite ScmFacts.selectNextResource_advances by done.
  cbn [state events fst snd].
  rewrite ScmFacts.selectPreviousResource_moves
    by (cbn [selectedIndex with_selectedIndex]; lia).
  cbn [selectedIndex with_selectedIndex _resources].
  replace (selectedIndex r + 1 - 1) with (selectedIndex r) by lia.
  split; [|done]. unfold selectedResource. f_equal. f_equal.
  destruct r; reflexivity.
Qed.

Lemma selectPrevious_undoes_selectNext_witness :
  selectPreviousResource (state (selectNextResource second_selected))
  = (selectedResource second_selected, second_selected, [RepositoryDidChange])
  ∧ events (selectNextResource second_selected) = [RepositoryDidChange].
Proof.
  apply (selectPrevious_undoes_selectNext second_selected);
    by vm_compute.
Defined.

(** *** Lookups in the repository map *)

Lemma map_get_None {V} k (m : Map V) : map_get k m = None ↔ k ∉ m.*1.
Proof.
  induction m as [|[k' v] m IH]; simpl.
  - split; [intros _; apply not_elem_of_nil|done].
  - rewrite not_elem_of_cons. case_bool_decide as E.
    + split; [done|]. intros [N _]. by destruct N.
    + rewrite IH. split; [by intros ?; split|by intros [_ ?]].
Qed.

Lemma map_get_app {V} k (m1 m2 : Map V) :
  map_get k (m1 ++ m2)
  = match map_get k m1 with Some v => Some v | None => map_get k m2 end.
Proof.
  induction m1 as [|[k' v] m1 IH]; simpl; [done|]. by case_bool_decide.
Qed.

Lemma map_get_elem_of {V} k v (m : Map V) :
  NoDup m.*1 → (k, v) ∈ m → map_get k m = Some v.
Proof.
  induction m as [|[k' v'] m IH]; [by intros _ ?%elem_of_nil|].
  rewrite fmap_cons. intros [N1 N2]%NoDup_cons [E|I]%elem_of_cons; simpl.
  - injection E as -> ->. by rewrite bool_decide_eq_true_2.
  - case_bool_decide as E; [|by apply IH]. subst k'. destruct N1.
    apply list_elem_of_fmap. by exists (k, v).
Qed.

Lemma map_get_delete {V} k k' (m : Map V) :
  NoDup m.*1 →
  map_get k' (map_delete k m) = if decide (k' = k) then None else map_get k' m.
Proof.
  induction m as [|[k2 v2] m IH]; [simpl; by case_decide|].
  rewrite fmap_cons. intros [N1 N2]%NoDup_cons. simpl in N1. simpl.
  case_bool_decide as E.
  - subst k2. destruct (decide (k' = k)) as [->|NE].
    + by apply map_get_None.
    + by rewrite bool_decide_eq_false_2 by done.
  - simpl. case_bool_decide as E2.
    + subst k2. by rewrite decide_False by done.
    + by apply IH.
Qed.

Lemma map_delete_fresh_last {V} k (v : V) (m : Map V) :
  k ∉ m.*1 → map_delete k (m ++ [(k, v)]) = m.
Proof.
  induction m as [|[k' v'] m IH]; simpl.
  - intros _. by rewrite bool_decide_eq_true_2.
  - intros [N1 N2]%not_elem_of_cons.
    rewrite bool_decide_eq_false_2 by done. by rewrite IH.
Qed.

(** X6.  After [registerScmProvider] has returned a repository, [getRepository]
    finds it under the provider's id, every other id resolves as before,
    and [repositories] lists it after the repositories that were there.
    When it throws, the id was taken: [getRepository] already finds a
    repository under it, and the service is as it was. *)
Theorem registerScmProvider_lookup (p : ScmProvider) (o : ScmProviderOptions)
    (s : ScmService) :
  match result (registerScmProvider p o s) with
  | Return r =>
      getRepository (provider_id p) s = None
      ∧ getRepository (provider_id p) (state (registerScmProvider p o s)) = Some r
      ∧ (∀ k, k ≠ provider_id p →
           getRepository k (state (registerScmProvider p o s))
           = getRepository k s)
      ∧ repositories (state (registerScmProvider p o s)) = repositories s ++ [r]
  | Throw _ =>
      is_Some (getRepository (provider_id p) s)
      ∧ state (registerScmProvider p o s) = s
  end.
Proof.
  rewrite ScmFacts.registerScmProvider_eq. unfold map_has, getRepository,
    repositories.
  case_bool_decide as I.
  - cbn [result state fst snd]. split; [|done].
    destruct (map_get (provider_id p) (_repositories s)) eqn:G; [done|].
    by apply map_get_None in G.
  - cbn zeta. rewrite ScmFacts.map_set_fresh by done.
    assert (map_get (provider_id p) (_repositories s) = None) as G
      by (by apply map_get_None).
    case_bool_decide; cbn [result state fst snd _repositories with_selected
      with_repositories with_heap];
      (split_and!; [done| | |by rewrite fmap_app]).
    + rewrite map_get_app, G. simpl. by rewrite bool_decide_eq_true_2.
    + intros k NE. rewrite map_get_app. simpl.
      rewrite bool_decide_eq_false_2 by done. by destruct (map_get k _).
    + rewrite map_get_app, G. simpl. by rewrite bool_decide_eq_true_2.
    + intros k NE. rewrite map_get_app. simpl.
      rewrite bool_decide_eq_false_2 by done. by destruct (map_get k _).
Qed.

(** X7.  A repository that [registerScmProvider] has just returned can be
    disposed of again without a trace in the repository map: the map is as
    before the registration and the provider's id is free again.  The
    selected repository is as before as well, except that a service without
    registered repositories ends with none selected.  (The selected
    repository, if any, is taken to be an object that exists already.) *)
Theorem dispose_after_register (p : ScmProvider) (o : ScmProviderOptions)
    (s : ScmService) (r : nat) :
  result (registerScmProvider p o s) = Return r →
  (∀ x, _selectedRepository s = Some x → (x < length (heap s))%nat) →
  _repositories (state (dispose r (state (registerScmProvider p o s))))
  = _repositories s
  ∧ getRepository (provider_id p)
      (state (dispose r (state (registerScmProvider p o s)))) = None
  ∧ _selectedRepository (state (dispose r (state (registerScmProvider p o s))))
    = (if decide (_repositories s = []) then None else _selectedRepository s).
Proof.
  rewrite ScmFacts.registerScmProvider_eq. unfold map_has, getRepository.
  case_bool_decide as I; [done|]. cbn zeta.
  rewrite ScmFacts.map_set_fresh by done.
  intros R Old.
  assert (r = length (heap s)) as -> by (by case_bool_decide; injection R).
  clear R.
  assert (map_get (provider_id p) (_repositories s) = None) as G
    by (by apply map_get_None).
  assert (∀ s1, heap s1 = heap s ++ [(new_ScmRepository p o).1] →
     _repositories s1 = _repositories s ++ [(provider_id p, length (heap s))] →
     dispose (length (heap s)) s1
     = if bool_decide (_selectedRepository s1 = Some (length (heap s))) then
         (tt, with_selected (map_first_value (_repositories s))
                (with_repositories (_repositories s) s1),
          [RepositoryDisposed (length (heap s));
           DidRemoveRepository (length (heap s));
           DidChangeSelectedRepository (map_first_value (_repositories s))])
       else (tt, with_repositories (_repositories s) s1,
             [RepositoryDisposed (length (heap s));
              DidRemoveRepository (length (heap s))])) as D.
  { intros s1 H M. rewrite ScmFacts.dispose_eq, H.
    rewrite lookup_app_r, Nat.sub_diag by done. cbn [lookup list_lookup].
    cbn zeta. rewrite ScmFacts.new_ScmRepository_provider, M.
    by rewrite map_delete_fresh_last. }
  case_bool_decide as L; cbn [_repositories with_repositories with_heap] in L;
    cbn [state fst snd]; rewrite D by done;
    cbn [_selectedRepository with_selected with_repositories with_heap].
  - rewrite length_app in L. simpl in L.
    assert (_repositories s = []) as E by (apply nil_length_inv; lia).
    rewrite bool_decide_eq_true_2 by done. cbn [state fst snd].
    cbn [_repositories _selectedRepository with_selected with_repositories].
    rewrite decide_True by done. by rewrite E.
  - assert (_repositories s ≠ []) as NE.
    { intros E. rewrite E in L. by destruct L. }
    rewrite bool_decide_eq_false_2.
    + cbn [state fst snd _repositories _selectedRepository with_repositories].
      by rewrite decide_False.
    + intros E. apply Old in E. lia.
Qed.

Lemma dispose_after_register_witness :
  _repositories
    (state (dispose 0 (state (registerScmProvider Samples.first_provider
                                Samples.no_options new_ScmService)))) = []
  ∧ getRepository (provider_id Samples.first_provider)
      (state (dispose 0 (state (registerScmProvider Samples.first_provider
                                  Samples.no_options new_ScmService)))) = None
  ∧ _selectedRepository
      (state (dispose 0 (state (registerScmProvider Samples.first_provider
                                  Samples.no_options new_ScmService)))) = None.
Proof.
  apply (dispose_after_register Samples.first_provider Samples.no_options
           new_ScmService 0); [reflexivity|].
  intros x E. discriminate E.
Defined.

Lemma delete_registered (s : ScmService) (r : nat) (repo : ScmRepository) :
  entries_wf s →
  heap s !! r = Some repo →
  (provider_id (provider repo), r) ∈ _repositories s →
  map_delete (provider_id (provider repo)) (_repositories s)
  = filter (λ e, e.2 ≠ r) (_repositories s).
Proof.
  intros [ND W] L Reg. rewrite ScmFacts.map_delete_filter by done.
  apply ScmFacts.filter_iff_on. intros [k r'] I. simpl.
  split; intros NE E; apply NE.
  - subst r'. destruct (W k r I) as (repo' & L' & Id). congruence.
  - subst k. by eapply ScmFacts.NoDup_keys_functional.
Qed.

Lemma head_elem_of {A} (l : list A) x : head l = Some x → x ∈ l.
Proof. destruct l; [done|]. intros [= ->]. by left. Qed.

(** X8.  As long as only registered repositories are disposed of, and nobody
    assigns [selectedRepository] from outside, registrations and disposals
    keep the selection in line with the map: a repository is selected
    exactly when one is registered, and the selected one is registered. *)
Theorem selection_stays_consistent (s : ScmService) :
  entries_wf s →
  selection_consistent s →
  (∀ p o, selection_consistent (state (registerScmProvider p o s)))
  ∧ (∀ r repo,
       heap s !! r = Some repo →
       (provider_id (provider repo), r) ∈ _repositories s →
       selection_consistent (state (dispose r s))).
Proof.
  intros WF C. split.
  - intros p o. rewrite ScmFacts.registerScmProvider_eq. unfold map_has.
    case_bool_decide as I; [done|]. cbn zeta.
    rewrite ScmFacts.map_set_fresh by done.
    unfold selection_consistent, repositories in *.
    case_bool_decide as L; cbn [_repositories with_repositories with_heap] in L;
      cbn [state fst snd _repositories _selectedRepository with_selected
           with_repositories with_heap].
    + rewrite fmap_app. apply elem_of_app. right. by left.
    + destruct (_selectedRepository s) as [x|].
      * rewrite fmap_app. apply elem_of_app. by left.
      * rewrite C in L. by destruct L.
  - intros r repo L Reg. rewrite ScmFacts.dispose_eq, L. cbn zeta.
    rewrite (delete_registered s r repo) by done.
    unfold selection_consistent, repositories, map_first_value in *.
    case_bool_decide as Sel;
      cbn [state fst snd _repositories _selectedRepository with_selected
           with_repositories].
    + destruct (head _) as [h|] eqn:H.
      * by apply head_elem_of.
      * destruct (filter _ _); [done|discriminate H].
    + destruct (_selectedRepository s) as [x|].
      * apply list_elem_of_fmap in C as ([k x'] & E & I). simpl in E. subst x'.
        apply list_elem_of_fmap. exists (k, x). split; [done|].
        apply list_elem_of_filter. split; [|done]. simpl. congruence.
      * rewrite C in Reg. by apply elem_of_nil in Reg.
Qed.

Lemma selection_stays_consistent_witness :
  (∀ p o, selection_consistent
            (state (registerScmProvider p o Samples.two_repositories)))
  ∧ (∀ r repo,
       heap Samples.two_repositories !! r = Some repo →
       (provider_id (provider repo), r) ∈ _repositories Samples.two_repositories →
       selection_consistent (state (dispose r Samples.two_repositories))).
Proof.
  apply (selection_stays_consistent Samples.two_repositories).
  - apply ScmFacts.entries_wf_reachable.
    apply (service_op _ (Register _ _)), (service_op _ (Register _ _)),
      service_new.
  - vm_compute. by left.
Defined.

(** X9.  The replaced [dispose] deletes the map entry by provider id, not by
    repository.  Disposing of a repository while another one is registered
    under the same provider id (the first was disposed of before and the
    id registered again) takes that other repository out of the map, fires
    [onDidRemoveRepository] for the disposed one only, and leaves the other
    one selected if it was. *)
Theorem dispose_again_unregisters_successor (s : ScmService) (r1 r2 : nat)
    (repo1 : ScmRepository) :
  entries_wf s →
  heap s !! r1 = Some repo1 →
  (provider_id (provider repo1), r2) ∈ _repositories s →
  r2 ≠ r1 →
  (r2 ∉ repositories (state (dispose r1 s)))
  ∧ getRepository (provider_id (provider repo1)) (state (dispose r1 s)) = None
  ∧ (DidRemoveRepository r1 ∈ events (dispose r1 s))
  ∧ (DidRemoveRepository r2 ∉ events (dispose r1 s))
  ∧ (_selectedRepository s = Some r2 →
     _selectedRepository (state (dispose r1 s)) = Some r2).
Proof.
  intros [ND W] L Reg NE. rewrite ScmFacts.dispose_eq, L. cbn zeta.
  unfold repositories, getRepository.
  assert (r2 ∉ (map_delete (provider_id (provider repo1)) (_repositories s)).*2)
    as Gone.
  { rewrite ScmFacts.map_delete_filter by done.
    intros ([k r'] & E & [K I]%list_elem_of_filter)%list_elem_of_fmap.
    simpl in E, K. subst r'.
    destruct (W k r2 I) as (repo & L2 & Id).
    destruct (W _ r2 Reg) as (repo' & L2' & Id'). congruence. }
  assert (map_get (provider_id (provider repo1))
            (map_delete (provider_id (provider repo1)) (_repositories s)) = None)
    as Free by (rewrite map_get_delete by done; by rewrite decide_True).
  case_bool_decide as Sel;
    cbn [state events fst snd _repositories _selectedRepository with_selected
         with_repositories].
  - split_and!; [done|done| | |congruence].
    + rewrite !elem_of_cons. tauto.
    + rewrite !elem_of_cons, elem_of_nil. intros [E|[E|[E|[]]]]; congruence.
  - split_and!; [done|done| | |done].
    + rewrite !elem_of_cons. tauto.
    + rewrite !elem_of_cons, elem_of_nil. intros [E|[E|[]]]; congruence.
Qed.

Lemma dispose_again_unregisters_successor_witness :
  (1%nat ∉ repositories (state (dispose 0 registered_again)))
  ∧ getRepository (provider_id Samples.first_provider)
      (state (dispose 0 registered_again)) = None
  ∧ (DidRemoveRepository 0 ∈ events (dispose 0 registered_again))
  ∧ (DidRemoveRepository 1 ∉ events (dispose 0 registered_again))
  ∧ (_selectedRepository registered_again = Some 1%nat →
     _selectedRepository (state (dispose 0 registered_again)) = Some 1%nat).
Proof.
  apply (dispose_again_unregisters_successor registered_again 0 1
           Samples.fresh_repository).
  - apply ScmFacts.entries_wf_reachable.
    apply (service_op _ (Register _ _)), (service_op _ (Dispose _)),
      (service_op _ (Register _ _)), service_new.
  - reflexivity.
  - vm_compute. by left.
  - lia.
Defined.

End ScmAccessorsFacts.

Module ScmWidgetFacts.
Import Scm ScmWidget.

(** *** format *)

Lemma digit_run_stops (ds : jsstring) (c : N) (rest : jsstring) :
  Forall (λ d, isDigit d = true) ds →
  isDigit c = false →
  digit_run (ds ++ c :: rest) = (ds, c :: rest).
Proof.
  intros D C. induction D as [|d ds Dd D IH]; simpl.
  - by rewrite C.
  - by rewrite Dd, IH.
Qed.

Lemma replace_placeholders_skip args (x post : jsstring) :
  replace_placeholders args (length x) (x ++ post)
  = replace_placeholders args 0 post.
Proof. induction x as [|c x IH]; [done|]. exact IH. Qed.

Lemma replace_placeholders_plain args (pre s : jsstring) :
  123%N ∉ pre →
  replace_placeholders args 0 (pre ++ s) = pre ++ replace_placeholders args 0 s.
Proof.
  induction pre as [|c pre IH]; [done|].
  intros [N1 N2]%not_elem_of_cons. cbn [app replace_placeholders].
  destruct (N.eqb_spec c 123) as [E|_]; [by destruct N1|].
  by rewrite IH.
Qed.

(** X10.  Without arguments, and on a text without a left brace, [format] returns
    the text as it is. *)
Theorem format_plain_text (value : jsstring) :
  format value [] = value
  ∧ (123%N ∉ value → ∀ args, format value args = value).
Proof.
  split; [done|]. intros N args. unfold format.
  case_bool_decide; [|done].
  rewrite <- (app_nil_r value) at 1.
  rewrite replace_placeholders_plain by done. simpl. by rewrite app_nil_r.
Qed.

(** X11.  The first placeholder of a text, a left brace, digits and a right
    brace, is replaced by the argument with that number when there is one
    and is left as it stands when the number is beyond the arguments; the
    text before it is kept and the text after it is formatted on its own
    (the argument put in is not scanned again). *)
Theorem format_first_placeholder (args : list jsstring) (pre ds post : jsstring) :
  123%N ∉ pre →
  ds ≠ [] →
  Forall (λ d, isDigit d = true) ds →
  format (pre ++ [123%N] ++ ds ++ [125%N] ++ post) args
  = pre
    ++ match args !! N.to_nat (parseInt ds) with
       | Some arg => arg
       | None => [123%N] ++ ds ++ [125%N]
       end
    ++ format post args.
Proof.
  intros NB NE D. unfold format. case_bool_decide as A.
  - rewrite replace_placeholders_plain by done. f_equal.
    cbn [app replace_placeholders]. cbn [N.eqb Pos.eqb].
    rewrite digit_run_stops by done.
    destruct ds as [|d ds]; [done|]. cbn [N.eqb Pos.eqb].
    unfold replacement.
    replace (S (length (d :: ds))) with (length ((d :: ds) ++ [125%N]))
      by (rewrite length_app; simpl; lia).
    replace ((d :: ds) ++ 125%N :: post) with (((d :: ds) ++ [125%N]) ++ post)
      by (by rewrite <- app_assoc).
    rewrite replace_placeholders_skip.
    by destruct (args !! _).
  - assert (args = []) as -> by (by apply nil_length_inv).
    rewrite lookup_nil. cbn [app]. by rewrite <- app_assoc.
Qed.

Lemma format_first_placeholder_witness :
  format (lit "Message (" ++ [123%N] ++ lit "0" ++ [125%N] ++ lit " to commit)")
    [lit "Ctrl+Enter"]
  = lit "Message ("
    ++ match [lit "Ctrl+Enter"] !! N.to_nat (parseInt (lit "0")) with
       | Some arg => arg
       | None => [123%N] ++ lit "0" ++ [125%N]
       end
    ++ format (lit " to commit)") [lit "Ctrl+Enter"].
Proof.
  apply (format_first_placeholder [lit "Ctrl+Enter"] (lit "Message (")
           (lit "0") (lit " to commit)")).
  - by apply (bool_decide_unpack _).
  - discriminate.
  - by repeat constructor.
Defined.

(** *** Accepting the input *)

Lemma on_selected_set_issue x r :
  on_selected (on_input (set_issue x)) r
  = if bool_decide (_issue (input r) = x) then (tt, r, [])
    else (tt, with_input (with_issue x (input r)) r,
          [OfSelected InputDidChange; OfSelected RepositoryDidChange]).
Proof.
  unfold on_selected, on_input. eff_unfold.
  rewrite ScmFacts.set_issue_eq.
  case_bool_decide; [|done]. by rewrite ScmFacts.with_input_id.
Qed.

Lemma on_selected_focus r :
  on_selected (on_input focus) r = (tt, r, [OfSelected InputFocus]).
Proof.
  unfold on_selected, on_input, focus. eff_unfold. simpl.
  by rewrite ScmFacts.with_input_id.
Qed.

Lemma executed_commands_app (l1 l2 : list WidgetEvent) :
  executed_commands (l1 ++ l2) = executed_commands l1 ++ executed_commands l2.
Proof. unfold executed_commands. apply bind_app. Qed.

Lemma executed_commands_of_selected (l : list ScmEvent) :
  executed_commands (l ≫= λ e, [OfSelected e]) = [].
Proof. unfold executed_commands. by induction l. Qed.

Lemma on_selected_set_value v r :
  ∃ r' l,
    on_selected (on_input (set_value v)) r = (tt, r', l)
    ∧ _value (input r') = v
    ∧ executed_commands l = [].
Proof.
  unfold on_selected. eff_unfold.
  destruct (ScmFacts.on_input_set_value v r) as (r' & l & -> & Val).
  eexists _, _. split; [reflexivity|]. split; [done|].
  apply executed_commands_of_selected.
Qed.

(** X12.  [executeInputCommand] does nothing on a key press other than Enter
    with Ctrl, without a selected repository, and when the provider has no
    accept command.  Otherwise, on an input value that is blank after
    trimming, the issue becomes the error [Please provide an input], no
    command is executed, the value stays and the input is focused; on any
    other value the accept command is executed once, for the provider of
    the selected repository, and the value is emptied when the command
    succeeds and kept when it fails, the failure being passed on. *)
Theorem executeInputCommand_spec (event : InputCommandEvent)
    (accept : option GitContribution.ScmCommand) (outcome : Completion unit)
    (s : option ScmRepository) :
  match s, accept with
  | Some r, Some command =>
      if not_accepting event then
        executeInputCommand event accept outcome s = (Return tt, s, [])
      else
        ∃ done r' l,
          executeInputCommand event accept outcome s = (done, Some r', l)
          ∧ if decide (trim (_value (input r)) = []) then
              done = Return tt
              ∧ _issue (input r') = Some issue_no_input
              ∧ executed_commands l = []
              ∧ _value (input r') = _value (input r)
              ∧ OfSelected InputFocus ∈ l
            else
              executed_commands l = [(GitContribution.cmd_id command, provider r)]
              ∧ match outcome with
                | Return _ => done = Return tt ∧ _value (input r') = []
                | Throw e => done = Throw e ∧ _value (input r') = _value (input r)
                end
  | _, _ => executeInputCommand event accept outcome s = (Return tt, s, [])
  end.
Proof.
  unfold executeInputCommand.
  destruct s as [r|], accept as [command|]; try by destruct (not_accepting event).
  destruct (not_accepting event); [done|]. eff_unfold.
  rewrite on_selected_set_issue.
  match goal with
  | |- context [if @bool_decide (_issue (input r) = None) ?d then ?a else ?b] =>
      assert (∃ r0 l0,
        (if @bool_decide (_issue (input r) = None) d then a else b)
        = (tt, r0, l0)
        ∧ _issue (input r0) = None
        ∧ _value (input r0) = _value (input r)
        ∧ provider r0 = provider r
        ∧ executed_commands l0 = []) as (r0 & l0 & -> & I0 & V0 & P0 & C0)
  end.
  { case_bool_decide; by eexists _, _. }
  rewrite V0.
  destruct (decide (trim (_value (input r)) = [])) as [Blank|Text].
  - rewrite Blank. cbn [truthy negb].
    rewrite on_selected_set_issue, I0.
    rewrite bool_decide_eq_false_2 by done.
    cbn [_issue input with_input with_issue GitContribution.truthy_obj negb].
    rewrite on_selected_focus.
    eexists _, _, _. split; [reflexivity|].
    cbn [_issue _value input with_input with_issue].
    split_and!; [done|done| |done|].
    + by rewrite !executed_commands_app, C0.
    + in_log.
  - assert (truthy (trim (_value (input r))) = true) as ->
      by (by destruct (trim (_value (input r)))).
    cbn [negb]. rewrite I0. cbn [GitContribution.truthy_obj negb].
    rewrite P0. destruct outcome as [[]|e].
    + destruct (on_selected_set_value [] r0) as (r1 & l1 & -> & V1 & C1).
      eexists _, _, _. split; [reflexivity|]. split; [|done].
      by rewrite !executed_commands_app, C0, C1.
    + eexists _, _, _. split; [reflexivity|]. split; [|done].
      by rewrite !executed_commands_app, C0.
Qed.

(** *** Name and path of a resource item *)

Lemma startsWith_occurs (s p : jsstring) :
  startsWith s p = true ↔ occurs_at s p 0.
Proof. unfold startsWith, occurs_at. by rewrite bool_decide_eq_true. Qed.

Lemma occurs_at_cons c (s p : jsstring) j :
  occurs_at (c :: s) p (S j) ↔ occurs_at s p j.
Proof. done. Qed.

Lemma lastIndexOf_from_spec (s p : jsstring) (i0 : Z) :
  0 ≤ i0 →
  (lastIndexOf_from s p i0 = -1
   ∧ ∀ j, (j ≤ length s)%nat → ¬ occurs_at s p j)
  ∨ ∃ j, (j ≤ length s)%nat
      ∧ lastIndexOf_from s p i0 = i0 + Z.of_nat j
      ∧ occurs_at s p j
      ∧ ∀ j', (j < j' ≤ length s)%nat → ¬ occurs_at s p j'.
Proof.
  revert i0. induction s as [|c s IH]; intros i0 P; cbn [lastIndexOf_from].
  - destruct (startsWith [] p) eqn:H.
    + right. exists 0%nat. apply startsWith_occurs in H.
      split_and!; [done|lia|done|]. simpl. lia.
    + left. split; [done|]. intros j J. assert (j = 0%nat) as -> by (simpl in J; lia).
      intros O%startsWith_occurs. congruence.
  - destruct (IH (i0 + 1)) as [[E N]|(j & J & E & O & M)]; [lia|..].
    + rewrite E. cbn [Z.ltb Z.compare].
      destruct (startsWith (c :: s) p) eqn:H.
      * right. exists 0%nat. apply startsWith_occurs in H.
        split_and!; [simpl; lia|lia|done|].
        intros [|j'] J'; [lia|]. rewrite occurs_at_cons. apply N. simpl in J'. lia.
      * left. split; [done|]. intros [|j] J.
        -- intros O%startsWith_occurs. congruence.
        -- rewrite occurs_at_cons. apply N. simpl in J. lia.
    + rewrite E. destruct (Z.ltb_spec (i0 + 1 + Z.of_nat j) 0); [lia|].
      right. exists (S j). split_and!; [simpl; lia|lia|done|].
      intros [|j'] J'; [lia|]. rewrite occurs_at_cons. apply M. simpl in J'. lia.
Qed.

Lemma occurs_at_middle (x p y : jsstring) : occurs_at (x ++ p ++ y) p (length x).
Proof.
  unfold occurs_at. rewrite drop_app_length. by rewrite take_app_length.
Qed.

Lemma lastIndexOf_last_occurrence (x p y : jsstring) :
  (∀ j, (length x < j)%nat → ¬ occurs_at (x ++ p ++ y) p j) →
  lastIndexOf (x ++ p ++ y) p = Z.of_nat (length x).
Proof.
  intros Later. unfold lastIndexOf.
  assert (length x ≤ length (x ++ p ++ y))%nat as Lx
    by (rewrite length_app; lia).
  destruct (lastIndexOf_from_spec (x ++ p ++ y) p 0) as [[_ N]|(j & J & E & O & M)];
    [lia| |].
  - destruct (N (length x) Lx). apply occurs_at_middle.
  - rewrite E. destruct (lt_eq_lt_dec j (length x)) as [[Lt|Eq]|Gt].
    + destruct (M (length x)); [lia|apply occurs_at_middle].
    + lia.
    + by destruct (Later j).
Qed.

Lemma occurs_at_char (s : jsstring) (c : N) j :
  occurs_at s [c] j → s !! j = Some c.
Proof.
  unfold occurs_at. cbn [length]. intros H.
  replace (s !! j) with (drop j s !! 0%nat)
    by (rewrite lookup_drop; f_equal; lia).
  destruct (drop j s); simpl in *; congruence.
Qed.

Lemma lastIndexOf_last_slash (dir file : jsstring) :
  47%N ∉ file →
  lastIndexOf (dir ++ [47%N] ++ file) [47%N] = Z.of_nat (length dir).
Proof.
  intros NS. apply lastIndexOf_last_occurrence. intros j J O%occurs_at_char.
  unfold jsstring in *. rewrite lookup_app_r in O by lia.
  destruct (j - length dir)%nat as [|k] eqn:K; [lia|]. simpl in O.
  apply NS. by eapply list_elem_of_lookup_2.
Qed.

Lemma lastIndexOf_no_slash (s : jsstring) :
  47%N ∉ s → lastIndexOf s [47%N] = -1.
Proof.
  intros NS. unfold lastIndexOf.
  destruct (lastIndexOf_from_spec s [47%N] 0) as [[E _]|(j & _ & _ & O & _)];
    [lia|done|].
  apply occurs_at_char in O. destruct NS. by eapply list_elem_of_lookup_2.
Qed.

Lemma clamp_inside (s : jsstring) (n : nat) :
  (n ≤ length s)%nat → clamp s (Z.of_nat n) = n.
Proof. unfold clamp, jslength. lia. Qed.

Lemma substring_from_app (x y : jsstring) :
  substring_from (x ++ y) (Z.of_nat (length x)) = y.
Proof.
  unfold substring_from. rewrite clamp_inside by (rewrite length_app; lia).
  by rewrite drop_app_length.
Qed.

Lemma substring_from_all (s : jsstring) : substring_from s 0 = s.
Proof. unfold substring_from, clamp, jslength. by replace (Z.to_nat _) with 0%nat by lia. Qed.

Lemma project_of_root (root project : jsstring) :
  47%N ∉ project →
  substring_from (root ++ [47%N] ++ project)
    (lastIndexOf (root ++ [47%N] ++ project) [47%N] + 1) = project.
Proof.
  intros NS. rewrite lastIndexOf_last_slash by done.
  replace (Z.of_nat (length root) + 1) with (Z.of_nat (length (root ++ [47%N])))
    by (rewrite length_app; simpl; lia).
  rewrite (app_assoc root). apply substring_from_app.
Qed.

(** X13.  The name of a resource item is the part of its URI path after the last
    slash, or the whole path when it has no slash, followed by a space; a
    provider without root URI gets no item at all. *)
Theorem resource_item_name (repoUri dir file : jsstring) :
  repoUri ≠ [] →
  47%N ∉ file →
  fst <$> renderScmResourceItem repoUri (dir ++ [47%N] ++ file)
  = Some (file ++ lit " ")
  ∧ fst <$> renderScmResourceItem repoUri file = Some (file ++ lit " ")
  ∧ renderScmResourceItem [] (dir ++ [47%N] ++ file) = None.
Proof.
  intros NE NS. unfold renderScmResourceItem.
  assert (truthy repoUri = true) as -> by (by destruct repoUri).
  cbn [negb truthy fmap option_fmap option_map fst].
  change (lit "/") with [47%N].
  rewrite lastIndexOf_last_slash, lastIndexOf_no_slash by done.
  split_and!; [|by rewrite substring_from_all|done].
  replace (Z.of_nat (length dir) + 1) with (Z.of_nat (length (dir ++ [47%N])))
    by (rewrite length_app; simpl; lia).
  rewrite (app_assoc dir). by rewrite substring_from_app.
Qed.

Lemma resource_item_name_witness :
  fst <$> renderScmResourceItem (lit "file:///home/u/proj")
            (lit "/home/u/proj/src" ++ [47%N] ++ lit "file.ts")
  = Some (lit "file.ts" ++ lit " ")
  ∧ fst <$> renderScmResourceItem (lit "file:///home/u/proj") (lit "file.ts")
    = Some (lit "file.ts" ++ lit " ")
  ∧ renderScmResourceItem [] (lit "/home/u/proj/src" ++ [47%N] ++ lit "file.ts")
    = None.
Proof.
  apply (resource_item_name (lit "file:///home/u/proj") (lit "/home/u/proj/src")
           (lit "file.ts")).
  - discriminate.
  - by apply (bool_decide_unpack _).
Defined.

(** X14.  The path of a resource item.  Let the root URI end in a slash and the
    project name, and let the URI path be made of some prefix, the project
    name, a slash, directories, a slash and the file name, the project
    name standing nowhere later in it.  Then the path shown is the
    directories between project and file name, except that directories of
    a single code unit (and of none) are shown as the empty path. *)
Theorem resource_item_path (root project a d f : jsstring) :
  47%N ∉ project →
  47%N ∉ f →
  (∀ j, (length a < j)%nat →
        ¬ occurs_at (a ++ project ++ [47%N] ++ d ++ [47%N] ++ f) project j) →
  renderScmResourceItem (root ++ [47%N] ++ project)
    (a ++ project ++ [47%N] ++ d ++ [47%N] ++ f)
  = Some (f ++ lit " ", if decide (1 < length d)%nat then d else []).
Proof.
  intros NP NF Later. unfold renderScmResourceItem.
  assert (truthy (root ++ [47%N] ++ project) = true) as -> by (by destruct root).
  cbn [negb]. change (lit "/") with [47%N]. cbn zeta.
  rewrite project_of_root by done.
  rewrite (lastIndexOf_last_occurrence a project) by done.
  set (uri := a ++ project ++ [47%N] ++ d ++ [47%N] ++ f).
  assert (uri = (a ++ project ++ [47%N] ++ d) ++ [47%N] ++ f) as U1
    by (subst uri; by rewrite <- !app_assoc).
  assert (uri = ((a ++ project ++ [47%N]) ++ d) ++ [47%N] ++ f) as U2
    by (subst uri; by rewrite <- !app_assoc).
  assert (lastIndexOf uri [47%N]
          = Z.of_nat (length (a ++ project ++ [47%N] ++ d))) as ->
    by (rewrite U1; by apply lastIndexOf_last_slash).
  f_equal. f_equal.
  - replace (Z.of_nat (length (a ++ project ++ [47%N] ++ d)) + 1)
      with (Z.of_nat (length ((a ++ project ++ [47%N] ++ d) ++ [47%N])))
      by (rewrite !length_app; simpl; lia).
    rewrite U1, (app_assoc _ [47%N] f). by rewrite substring_from_app.
  - assert (substring uri
              (Z.of_nat (length a) + jslength project + 1)
              (Z.of_nat (length (a ++ project ++ [47%N] ++ d))) = d) as ->.
    { unfold substring, jslength.
      replace (Z.of_nat (length a) + Z.of_nat (length project) + 1)
        with (Z.of_nat (length (a ++ project ++ [47%N])))
        by (rewrite !length_app; simpl; lia).
      rewrite !clamp_inside
        by (subst uri; rewrite !length_app; simpl; rewrite ?length_app; simpl; lia).
      rewrite !length_app. cbn [length].
      rewrite Nat.min_l, Nat.max_r by (rewrite ?length_app; simpl; lia).
      replace (length a + (length project + 1))%nat
        with (length (a ++ project ++ [47%N]))
        by (rewrite !length_app; simpl; lia).
      rewrite U2, <- (app_assoc _ d), drop_app_length.
      match goal with
      | |- take ?n _ = _ =>
          replace n with (length d) by (rewrite !length_app; simpl; lia)
      end.
      by rewrite take_app_length. }
    unfold jslength. destruct (Z.ltb_spec 1 (Z.of_nat (length d)));
      case_decide; done || lia.
Qed.

Lemma no_later_occurrence (s p : jsstring) (n : nat) :
  lastIndexOf (drop (S n) s) p = -1 →
  ∀ j, (n < j)%nat → ¬ occurs_at s p j.
Proof.
  unfold lastIndexOf. intros E j J O.
  destruct (lastIndexOf_from_spec (drop (S n) s) p 0) as [[_ N]|(k & _ & E' & _)];
    [lia| |lia].
  assert (occurs_at (drop (S n) s) p (j - S n)%nat) as O'.
  { unfold occurs_at in *. rewrite drop_drop.
    by replace (S n + (j - S n))%nat with j by lia. }
  destruct (le_lt_dec (j - S n)%nat (length (drop (S n) s))) as [Le|Gt].
  - by destruct (N (j - S n)%nat).
  - destruct (N (length (drop (S n) s))); [done|].
    unfold occurs_at in *. rewrite drop_ge in O' by lia.
    rewrite drop_all. by destruct p.
Qed.

Lemma resource_item_path_witness :
  renderScmResourceItem (lit "file:///home/u" ++ [47%N] ++ lit "proj")
    (lit "/home/u/" ++ lit "proj" ++ [47%N] ++ lit "src/a" ++ [47%N]
       ++ lit "file.ts")
  = Some (lit "file.ts" ++ lit " ",
          if decide (1 < length (lit "src/a"))%nat then lit "src/a" else []).
Proof.
  apply (resource_item_path (lit "file:///home/u") (lit "proj")
           (lit "/home/u/") (lit "src/a") (lit "file.ts")).
  - by apply (bool_decide_unpack _).
  - by apply (bool_decide_unpack _).
  - apply no_later_occurrence. by vm_compute.
Defined.

(** X15.  A file that lies directly in the project directory is shown with an
    empty path: the two indices given to [substring] are then in reverse
    order, the result is the single slash between project and file name,
    and a path of one code unit is dropped. *)
Theorem resource_item_in_root (root project a f : jsstring) :
  47%N ∉ project →
  47%N ∉ f →
  (∀ j, (length a < j)%nat →
        ¬ occurs_at (a ++ project ++ [47%N] ++ f) project j) →
  renderScmResourceItem (root ++ [47%N] ++ project)
    (a ++ project ++ [47%N] ++ f)
  = Some (f ++ lit " ", []).
Proof.
  intros NP NF Later. unfold renderScmResourceItem.
  assert (truthy (root ++ [47%N] ++ project) = true) as -> by (by destruct root).
  cbn [negb]. change (lit "/") with [47%N]. cbn zeta.
  rewrite project_of_root by done.
  rewrite (lastIndexOf_last_occurrence a project) by done.
  set (uri := a ++ project ++ [47%N] ++ f).
  assert (uri = (a ++ project) ++ [47%N] ++ f) as U1
    by (subst uri; by rewrite <- !app_assoc).
  assert (lastIndexOf uri [47%N] = Z.of_nat (length (a ++ project))) as ->
    by (rewrite U1; by apply lastIndexOf_last_slash).
  f_equal. f_equal.
  - replace (Z.of_nat (length (a ++ project)) + 1)
      with (Z.of_nat (length ((a ++ project) ++ [47%N])))
      by (rewrite !length_app; simpl; lia).
    rewrite U1, (app_assoc _ [47%N] f). by rewrite substring_from_app.
  - assert (substring uri
              (Z.of_nat (length a) + jslength project + 1)
              (Z.of_nat (length (a ++ project))) = [47%N]) as ->; [|done].
    unfold substring, jslength.
    replace (Z.of_nat (length a) + Z.of_nat (length project) + 1)
      with (Z.of_nat (S (length (a ++ project))))
      by (rewrite !length_app; simpl; lia).
    rewrite !clamp_inside
      by (subst uri; rewrite !length_app; simpl; rewrite ?length_app; simpl; lia).
    rewrite Nat.min_r, Nat.max_l by lia.
    replace (S (length (a ++ project)) - length (a ++ project))%nat
      with 1%nat by lia.
    rewrite U1. unfold jsstring. by rewrite drop_app_length.
Qed.

Lemma resource_item_in_root_witness :
  renderScmResourceItem (lit "file:///home/u" ++ [47%N] ++ lit "proj")
    (lit "/home/u/" ++ lit "proj" ++ [47%N] ++ lit "file.ts")
  = Some (lit "file.ts" ++ lit " ", []).
Proof.
  apply (resource_item_in_root (lit "file:///home/u") (lit "proj")
           (lit "/home/u/") (lit "file.ts")).
  - by apply (bool_decide_unpack _).
  - by apply (bool_decide_unpack _).
  - apply no_later_occurrence. by vm_compute.
Defined.

End ScmWidgetFacts.

Module GitCommandsFacts.
Import Scm GitContribution GitCommands GitHandlers.

(** *** Tables *)

(** X16.  No command is registered twice, and every command that a menu action,
    a toolbar item, or a title, resource or group item of the contribution
    names is one that [registerCommands] registers. *)
Theorem commands_registered_once_and_for_all
    (EditorContextMenu_NAVIGATION : list jsstring) :
  NoDup registered_ids
  ∧ length registered_ids = 30%nat
  ∧ referenced_ids EditorContextMenu_NAVIGATION ⊆ registered_ids.
Proof.
  split_and!.
  - by apply (bool_decide_unpack _).
  - reflexivity.
  - intros c I. apply (bool_decide_unpack _).
    revert c I. apply Forall_forall.
    by apply (bool_decide_unpack _).
Qed.

(** The first six menu actions are those of the first group, for fetch,
    pull, pull from, push, push to and merge, and each carries the label of
    its command without the prefix [Git: ]: putting the prefix back gives
    the label of the command. *)
Lemma first_group_labels (EditorContextMenu_NAVIGATION : list jsstring) :
  Forall2
    (λ a c, menuPath a = FIRST_GROUP
            ∧ commandId a = id c
            ∧ (lit "Git: " ++.) <$> action_label a = label c)
    (take 6 (registerMenus EditorContextMenu_NAVIGATION))
    [FETCH; PULL_DEFAULT; PULL; PUSH_DEFAULT; PUSH; MERGE].
Proof. repeat constructor. Qed.

(** *** The sync entry *)

(** X17.  [updateSyncStatusBarEntry] removes the sync element unless an SCM
    provider is selected and the status of the selected repository has a
    branch; otherwise it publishes one command under the sync id.  That
    command triggers nothing while a synchronisation runs, triggers [Sync]
    exactly when there is an upstream branch, and [Publish] exactly when
    there is none.  With an upstream branch the text is [$(refresh)], and
    it is followed by the counts of commits behind and ahead exactly when
    their sum is positive. *)
Theorem sync_entry_cases (number_toString : N → jsstring) (selected : bool)
    (status : option SyncStatus) (isSyncing : bool) :
  match status with
  | Some st =>
      if selected && truthy_str (sync_branch st) then
        ∃ c,
          updateSyncStatusBarEntry number_toString selected status isSyncing
          = [SetSyncCommands [c]]
          ∧ cmd_id c = GIT_SYNC_STATUS
          ∧ (cmd_command c = None ↔ isSyncing = true)
          ∧ (cmd_command c = Some (id SYNC)
             ↔ isSyncing = false ∧ truthy_str (upstreamBranch st) = true)
          ∧ (cmd_command c = Some (id PUBLISH)
             ↔ isSyncing = false ∧ truthy_str (upstreamBranch st) = false)
          ∧ (cmd_command c = Some (id SYNC) →
             cmd_text c
             = lit "$(refresh)"
               ++ match aheadBehind st with
                  | Some (ahead, behind) =>
                      if decide (0 < ahead + behind)%N then
                        lit " " ++ number_toString behind ++ [8595%N]
                        ++ lit " " ++ number_toString ahead ++ [8593%N]
                      else []
                  | None => []
                  end)
      else
        updateSyncStatusBarEntry number_toString selected status isSyncing
        = [RemoveElement GIT_SYNC_STATUS]
  | None =>
      updateSyncStatusBarEntry number_toString selected status isSyncing
      = [RemoveElement GIT_SYNC_STATUS]
  end.
Proof.
  destruct status as [st|]; [|done].
  unfold updateSyncStatusBarEntry, getStatusBarEntry.
  destruct selected, (truthy_str (sync_branch st)); cbn [andb negb]; try done.
  - destruct isSyncing; [|destruct (truthy_str (upstreamBranch st))];
      eexists; (split; [reflexivity|]); cbn [cmd_id cmd_command cmd_text
        entry_text entry_command entry_tooltip];
      (split; [done|]); split_and!; try (split; (done || by intros [??])).
    + done.
    + intros _. destruct (aheadBehind st) as [[ahead behind]|]; [|done].
      destruct (N.ltb_spec 0 (ahead + behind)); case_decide; done || lia.
    + done.
  - by destruct isSyncing, (truthy_str (upstreamBranch st)).
Qed.

(** *** The commit commands *)

Section CommitCommandsFacts.
Context {GitFileStatus : Type}.

Lemma commit_calls (git : GitAnswers GitFileStatus) (options : CommitOptions)
    (s : option ScmRepository) :
  git_commit_calls (events (commit git options s)) = []
  ∨ ∃ r, s = Some r
      ∧ git_commit_calls (events (commit git options s))
        = [(or_else (opt_message options) (_value (input r)),
            signOff options, amend options)].
Proof.
  destruct s as [r|]; [|by left].
  unfold commit, with_selectedScmRepository. eff_unfold.
  set (message := or_else (opt_message options) (_value (input r))).
  rewrite GitFacts.on_repository_set_issue.
  match goal with
  | |- context [if @bool_decide (_issue (input r) = None) ?d then ?a else ?b] =>
      assert (∃ r0 l0,
        (if @bool_decide (_issue (input r) = None) d then a else b)
        = (tt, r0, l0)
        ∧ _issue (input r0) = None
        ∧ git_commit_calls l0 = []) as (r0 & l0 & -> & I0 & C0)
  end.
  { case_bool_decide; by eexists _, _. }
  destruct (truthy (trim message)); cbn [negb].
  - rewrite I0. rewrite bool_decide_eq_true_2 by done.
    destruct (existsb _ (status_changes git)); cbn [negb].
    + rewrite I0. cbn [truthy_obj negb]. right. exists r. split; [done|].
      destruct (commit_resolves git).
      * destruct (GitFacts.on_repository_set_value [] r0)
          as (r1 & l1 & -> & _ & C1).
        cbn [fst snd]. by rewrite !GitFacts.git_commit_calls_app, C0, C1.
      * cbn [fst snd]. by rewrite !GitFacts.git_commit_calls_app, C0.
    + rewrite GitFacts.on_repository_set_issue, I0.
      rewrite bool_decide_eq_false_2 by done.
      cbn [_issue input with_input with_issue truthy_obj negb].
      rewrite GitFacts.on_repository_focus. left.
      cbn [fst snd]. by rewrite !GitFacts.git_commit_calls_app, C0.
  - rewrite GitFacts.on_repository_set_issue, I0.
    rewrite bool_decide_eq_false_2 by done.
    cbn [_issue input with_input with_issue].
    rewrite bool_decide_eq_false_2 by done.
    cbn [truthy_obj negb].
    rewrite GitFacts.on_repository_focus. left.
    cbn [fst snd]. by rewrite !GitFacts.git_commit_calls_app, C0.
Qed.

(** X18.  The three commit commands differ only in the options of the call of
    [git.commit], if they come to it: [Commit] passes neither [signOff] nor
    [amend], [Commit (Signed Off)] passes [signOff] alone, and
    [Commit (Amend)] passes [amend] alone together with the message chosen
    in the quick-open box (when that is not empty).  When the box is
    left with the error [User abort.], [Commit (Amend)] ends quietly; any
    other failure of the box is passed on; either way nothing has been
    touched. *)
Theorem commit_commands (git : GitAnswers GitFileStatus)
    (answer : jsstring + Thrown) (s : option ScmRepository) :
  (∀ c, c ∈ git_commit_calls (events (execute_COMMIT git s)) →
        c.1.2 = None ∧ c.2 = None)
  ∧ (∀ c, c ∈ git_commit_calls (events (execute_COMMIT_SIGN_OFF git s)) →
          c.1.2 = Some true ∧ c.2 = None)
  ∧ (∀ c, c ∈ git_commit_calls (events (execute_COMMIT_AMEND git answer s)) →
          c.1.2 = None ∧ c.2 = Some true
          ∧ ∀ m, answer = inl m → m ≠ [] → c.1.1 = m)
  ∧ (∀ e, answer = inr e →
          execute_COMMIT_AMEND git answer s
          = (match e with
             | ErrorObject m =>
                 if decide (m = lit "User abort.") then None else Some e
             | OtherValue => Some e
             end, s, [])).
Proof.
  split_and!.
  - intros c. unfold execute_COMMIT.
    destruct (commit_calls git
                {| signOff := None; amend := None; opt_message := None |} s)
      as [->|(r & _ & ->)].
    + by intros ?%elem_of_nil.
    + by intros ->%list_elem_of_singleton.
  - intros c. unfold execute_COMMIT_SIGN_OFF.
    destruct (commit_calls git
                {| signOff := Some true; amend := None; opt_message := None |} s)
      as [->|(r & _ & ->)].
    + by intros ?%elem_of_nil.
    + by intros ->%list_elem_of_singleton.
  - intros c. unfold execute_COMMIT_AMEND.
    destruct answer as [m|e].
    + pose proof (commit_calls git
        {| opt_message := Some m; amend := Some true; signOff := None |} s) as C.
      eff_unfold.
      destruct (commit git _ s) as [[[] s'] l]. cbn [fst snd] in *.
      rewrite app_nil_r.
      destruct C as [->|(r & _ & ->)].
      * by intros ?%elem_of_nil.
      * intros ->%list_elem_of_singleton. cbn [fst snd].
        split; [done|]. split; [done|].
        intros m' [= <-] NE. unfold or_else, truthy_str. cbn [opt_message].
        by destruct m.
    + destruct e as [m|]; [case_bool_decide|]; by intros ?%elem_of_nil.
  - intros e ->. unfold execute_COMMIT_AMEND.
    destruct e as [m|]; [|done].
    case_bool_decide; case_decide; done.
Qed.

End CommitCommandsFacts.

(** *** Open File and Open Changes *)

(** X19.  [Open File] and [Open Changes] are never both available for the same
    widget: the first needs an editor on a diff URI, the second an editor
    on another URI (with a selected SCM provider and a change whose URI to
    open differs from the editor's).  A widget that is passed in decides
    alone, the current editor being consulted only when none is passed;
    and a widget that is no editor gets neither command. *)
Theorem open_commands_exclude_each_other
    {URI Selection Change : Type}
    (isDiffUri : URI → bool) (decode_right withScheme_file : URI → URI)
    (toString : URI → jsstring) (findChange : URI → option Change)
    (getUriToOpen : Change → URI) (selected : bool)
    (widget currentEditor : option (@Widget URI Selection)) :
  (getOpenFileOptions isDiffUri decode_right withScheme_file widget currentEditor
   = None
   ∨ getOpenChangesOptions isDiffUri toString findChange getUriToOpen selected
       widget currentEditor = None)
  ∧ (∀ w other,
       widget = Some w →
       getOpenFileOptions isDiffUri decode_right withScheme_file widget
         currentEditor
       = getOpenFileOptions isDiffUri decode_right withScheme_file widget other
       ∧ getOpenChangesOptions isDiffUri toString findChange getUriToOpen
           selected widget currentEditor
         = getOpenChangesOptions isDiffUri toString findChange getUriToOpen
             selected widget other)
  ∧ (widget = Some OtherWidget →
     getOpenFileOptions isDiffUri decode_right withScheme_file widget
       currentEditor = None
     ∧ getOpenChangesOptions isDiffUri toString findChange getUriToOpen
         selected widget currentEditor = None)
  ∧ (∀ o, getOpenFileOptions isDiffUri decode_right withScheme_file widget
            currentEditor = Some o →
          ∃ uri, file_ref o = EditorWidget uri (file_selection o)
                 ∧ isDiffUri uri = true
                 ∧ file_uri o = withScheme_file (decode_right uri)).
Proof.
  unfold getOpenFileOptions, getOpenChangesOptions. split_and!.
  - destruct (ref_of widget currentEditor) as [[uri sel|]|];
      [|by left|by left].
    destruct (isDiffUri uri); [right|by left].
    by destruct selected.
  - by intros w other ->.
  - intros ->. by destruct selected.
  - intros o. destruct (ref_of widget currentEditor) as [[uri sel|]|]; [|done..].
    destruct (isDiffUri uri) eqn:D; [|done].
    intros [= <-]. by exists uri.
Qed.

End GitCommandsFacts.
